(** * webtorrent-tracker: the tracker server and the reconnecting socket

    A shallow embedding of [src/server.js]: the WebSocket tracker
    ([Server.prototype._getSwarm], [_onSocketMessage], [_getPeers]) and the
    client-side reconnecting [Socket].

    JavaScript values are modelled as the code uses them:
    - a string is its sequence of UTF-16 code units;
    - an object literal [{}] used as a map is an insertion-ordered list of own
      properties, read through the prototype chain ([Object.prototype]);
    - the counters are numbers that only ever move by one, kept as [Z]; a
      number that comes with a message is a rational, [NaN] or an infinity;
    - calls on collaborators ([socket.send], [self.emit], [setTimeout], ...)
      are recorded, in order, in a trace of effects. *)

From Stdlib Require Import List NArith ZArith String Ascii Bool Lia.
From Stdlib Require Import QArith_base Qround.
Import ListNotations.

Local Open Scope string_scope.
Local Open Scope list_scope.

(** ** JavaScript strings *)

(** A string is a list of UTF-16 code units. *)
Definition jsstring := list N.

(** A source literal: every character of the literals in [server.js] is
    ASCII, one code unit each. *)
Definition js (s : string) : jsstring :=
  map N_of_ascii (list_ascii_of_string s).

(** [a === b] on strings. *)
Fixpoint eqs (a b : jsstring) : bool :=
  match a, b with
  | [], [] => true
  | x :: a', y :: b' => (x =? y)%N && eqs a' b'
  | _, _ => false
  end.

(** ** Objects used as maps *)

(** Own enumerable properties, in insertion order (the order of [for..in]
    for keys that are not array indices). *)
Definition object (V : Type) := list (jsstring * V).

Fixpoint own {V} (o : object V) (k : jsstring) : option V :=
  match o with
  | [] => None
  | (k', v) :: o' => if eqs k' k then Some v else own o' k
  end.

(** [o[k] = v]: an existing own property keeps its place, a new one goes
    last. *)
Fixpoint put {V} (o : object V) (k : jsstring) (v : V) : object V :=
  match o with
  | [] => [(k, v)]
  | (k', v') :: o' =>
      if eqs k' k then (k', v) :: o' else (k', v') :: put o' k v
  end.

(** The members every object literal inherits from [Object.prototype]. None
    of them is enumerable; each is an object (a function, or for [__proto__]
    the prototype itself), hence truthy, and none has a property named
    [peers], [socket] or [complete] to begin with. *)
Definition Object_prototype : list jsstring :=
  map js [ "constructor"; "hasOwnProperty"; "isPrototypeOf";
           "propertyIsEnumerable"; "toLocaleString"; "toString"; "valueOf";
           "__defineGetter__"; "__defineSetter__"; "__lookupGetter__";
           "__lookupSetter__"; "__proto__" ].

Definition inherited (k : jsstring) : bool := existsb (eqs k) Object_prototype.

(** The result of the property read [o[k]]. *)
Inductive property (V : Type) : Type :=
| Own (v : V)
| Inherited (name : jsstring)
| Undefined.
Arguments Own {V} v.
Arguments Inherited {V} name.
Arguments Undefined {V}.

Definition get {V} (o : object V) (k : jsstring) : property V :=
  match own o k with
  | Some v => Own v
  | None => if inherited k then Inherited k else Undefined
  end.

(** ** Buffers *)

Definition Buffer := list Byte.byte.

Definition byte_of_N (n : N) : Byte.byte :=
  match Byte.of_N n with Some b => b | None => Byte.x00 end.

(** [new Buffer(str, 'binary')]: the low eight bits of every code unit. *)
Definition Buffer_binary (str : jsstring) : Buffer :=
  map (fun c => byte_of_N (c mod 256)%N) str.

(** [buf.toString('binary')]: one code unit per byte. *)
Definition toString_binary (buf : Buffer) : jsstring := map Byte.to_N buf.

(** [buf.toString('hex')]: two lowercase digits per byte. *)
Definition hex_digit (n : N) : N :=
  if (n <? 10)%N then (48 + n)%N else (87 + n)%N.

Fixpoint toString_hex (buf : Buffer) : jsstring :=
  match buf with
  | [] => []
  | b :: buf' =>
      hex_digit (Byte.to_N b / 16)%N :: hex_digit (Byte.to_N b mod 16)%N
        :: toString_hex buf'
  end.

Definition hex_value (c : N) : option N :=
  if ((48 <=? c) && (c <=? 57))%N then Some (c - 48)%N
  else if ((97 <=? c) && (c <=? 102))%N then Some (c - 87)%N
  else if ((65 <=? c) && (c <=? 70))%N then Some (c - 55)%N
  else None.

(** [new Buffer(str, 'hex')]. [None]: the string is not a sequence of hex
    digit pairs, which the Buffer constructor rejects. *)
Fixpoint Buffer_hex (str : jsstring) : option Buffer :=
  match str with
  | [] => Some []
  | hi :: lo :: str' =>
      match hex_value hi, hex_value lo, Buffer_hex str' with
      | Some h, Some l, Some buf => Some (byte_of_N (16 * h + l)%N :: buf)
      | _, _, _ => None
      end
  | _ => None
  end.

(** [buf.toString('utf8')]: the UTF-8 decoder, replacing every ill-formed
    subsequence by U+FFFD; a code point beyond the basic plane becomes a
    surrogate pair. *)
Definition utf16 (cp : N) : jsstring :=
  if (cp <? 65536)%N then [cp]
  else [(55296 + (cp - 65536) / 1024)%N; (56320 + (cp - 65536) mod 1024)%N].

(** A pending multi-byte sequence: the bits read so far, the continuation
    bytes still expected, and the range allowed for the next byte. *)
Definition pending := (N * nat * N * N)%type.

Definition utf8_lead (b : N) : jsstring * option pending :=
  if (b <=? 127)%N then ([b], None)
  else if ((194 <=? b) && (b <=? 223))%N then
    ([], Some (N.land b 31, 1%nat, 128, 191)%N)
  else if ((224 <=? b) && (b <=? 239))%N then
    ([], Some (N.land b 15, 2%nat,
               if (b =? 224)%N then 160%N else 128%N,
               if (b =? 237)%N then 159%N else 191%N))
  else if ((240 <=? b) && (b <=? 244))%N then
    ([], Some (N.land b 7, 3%nat,
               if (b =? 240)%N then 144%N else 128%N,
               if (b =? 244)%N then 143%N else 191%N))
  else ([65533%N], None).

Fixpoint utf8_decode (p : option pending) (bytes : list N) : jsstring :=
  match bytes with
  | [] => match p with None => [] | Some _ => [65533%N] end
  | b :: rest =>
      match p with
      | None => let (out, p') := utf8_lead b in out ++ utf8_decode p' rest
      | Some (cp, need, lo, hi) =>
          if ((lo <=? b) && (b <=? hi))%N then
            let cp' := (cp * 64 + N.land b 63)%N in
            match need with
            | S (S n) => utf8_decode (Some (cp', S n, 128%N, 191%N)) rest
            | _ => utf16 cp' ++ utf8_decode None rest
            end
          else
            let (out, p') := utf8_lead b in
            65533%N :: out ++ utf8_decode p' rest
      end
  end.

Definition toString_utf8 (buf : Buffer) : jsstring :=
  utf8_decode None (map Byte.to_N buf).

(** [function binaryToUtf8 (str)] *)
Definition binaryToUtf8 (str : jsstring) : jsstring :=
  toString_utf8 (Buffer_binary str).

(** ** Numbers *)

(** A number. Every finite double is a rational; [-0] is not kept apart
    from [0], which no operation used here tells apart either. *)
Inductive number :=
| NaN
| Num (q : Q)
| PlusInfinity
| MinusInfinity.

(** What [Number(x)] makes of a value [x] of a message: a result, or the
    TypeError it throws when [x] cannot be converted to a primitive value.
    [JSON.parse] can return such a value: an object whose [valueOf] and
    [toString] are both own properties that are no functions, such as
    [{"valueOf": 0, "toString": 0}], or an array that holds one. *)
Inductive converted (A : Type) : Type :=
| Converts (a : A)
| NumberThrows.
Arguments Converts {A} a.
Arguments NumberThrows {A}.

(** [x || 0]: [NaN] and [0] are falsy. *)
Definition or_zero (x : number) : number :=
  match x with
  | NaN => Num (0 # 1)
  | Num q => if Qeq_bool q (0 # 1) then Num (0 # 1) else x
  | PlusInfinity | MinusInfinity => x
  end.

(** [Math.min(x, y)] *)
Definition Math_min (x y : number) : number :=
  match x, y with
  | NaN, _ | _, NaN => NaN
  | MinusInfinity, _ | _, MinusInfinity => MinusInfinity
  | PlusInfinity, _ => y
  | _, PlusInfinity => x
  | Num p, Num q => if Qle_bool p q then x else y
  end.

(** [n >= x], for the length [n] of an array. *)
Definition ge_number (n : nat) (x : number) : bool :=
  match x with
  | NaN | PlusInfinity => false
  | Num q => Qle_bool q (inject_Z (Z.of_nat n))
  | MinusInfinity => true
  end.

(** ** The tracker's data *)

(** A connection accepted by the WebSocket server: the object [socket]
    handed to the handlers, known by its identity. *)
Definition WebSocket := nat.

(** An entry of [swarm.peers], as created at line 134:
    [{ socket: socket, peerId: peerId }]. [complete] is absent until line 170
    stores [true]. *)
Module Peer.
Record t := mk { socket : WebSocket; peerId : jsstring; complete : bool }.
End Peer.

(** A swarm, as created by [_getSwarm]. A slot of [peers] holds a peer or
    [null] ([None]). *)
Module Swarm.
Record t := mk { complete : Z; incomplete : Z; peers : object (option Peer.t) }.
End Swarm.

(** The state the handlers act on: the server's fields [_intervalMs] and
    [torrents], and the one piece of the surrounding realm the handler can
    write to, the members of [Object.prototype] on which line 170 has stored
    a [complete] property. *)
Record Server := {
  _intervalMs : Q;
  torrents : object Swarm.t;
  prototype_complete : list jsstring
}.

Definition MAX_ANNOUNCE_PEERS : number := Num (20 # 1).

(** [function Server (opts)], as far as the state above goes. [interval] is
    [opts.interval] when it is a number. *)
Definition new_Server (interval : option Q) : Server :=
  {| _intervalMs :=
       match interval with
       | Some ms => if Qeq_bool ms (0 # 1) then (600 # 1)
                    else Qmult ms (Qinv (1000 # 1))
       | None => Qmult (10 # 1) (60 # 1)
       end;
     torrents := [];
     prototype_complete := [] |}.

(** An offer or an answer is relayed as it came; it is kept as the text of
    its JSON value. *)
Definition json := jsstring.

(** What [socket.send] is called with. *)
Inductive frame :=
| FailureReason (message : string)
    (* JSON.stringify({ 'failure reason': message }) *)
| Response (complete incomplete : Z) (interval : Q) (warning : option string)
    (* JSON.stringify(response) *)
| Introduction (offer : option json) (from_peer_id : jsstring)
    (* { offer: data.offers[i], from_peer_id: peerId }; None is undefined *)
| Answer (answer : option jsstring).
    (* the variable answer: a string, or false (None) *)

(** The calls the handler makes on its collaborators. *)
Inductive effect :=
| Send (socket : WebSocket) (f : frame)
| Emit (event : string) (message : option string).

(** The value of [data.event] as the [switch] tells it apart. *)
Inductive event_field :=
| EventUndefined
| EventString (s : jsstring)
| EventOther.   (* null, a number, a boolean, an array, an object *)

(** The value of [data.offers], as lines 117 and 219 read it. Nothing
    requires an array: every value that is not falsy is asked for its
    [length] and for its elements. *)
Inductive offers_field :=
| OffersFalsy
    (* data.offers is missing, null, false, 0 or '' *)
| OffersTruthy (length : converted number) (elements : list (option json)).
    (* any other value: an array, a string, an object, true, a number.
       length: Number(data.offers.length), NaN where there is no length or
       it is no number; elements: data.offers[0], data.offers[1], ... up to
       the last one there is, None where data.offers[i] is undefined *)

(** The parsed message, seen through the reads the handler makes. *)
Record Message := {
  info_hash : option jsstring;   (* Some s: typeof data.info_hash === 'string' *)
  peer_id : option jsstring;     (* Some s: typeof data.peer_id === 'string' *)
  event : event_field;
  left_is_zero : converted bool; (* Number(data.left) === 0 *)
  offers : offers_field;
  to_peer_id : option jsstring;  (* Some s: typeof data.to_peer_id === 'string' *)
  answer : option jsstring       (* Some s: typeof data.answer === 'string' *)
}.

(** The text frame handed to [_onSocketMessage], seen through [JSON.parse]. *)
Inductive Data :=
| NotJSON                      (* JSON.parse throws *)
| JSONNull                     (* the text null *)
| JSONValue (data : Message).  (* any other value; a number, a string, a
                                  boolean or an array has none of the
                                  properties read *)

(** How a call of the handler ends. *)
Inductive outcome :=
| Returned (self : Server) (trace : list effect)
| Thrown (self : Server) (trace : list effect).   (* a TypeError escapes *)

(** ** [Server.prototype.getSwarm] and [_getSwarm] *)

(** What the variable [swarm] holds after [_getSwarm]: the swarm object
    stored under [key] in [torrents], or a member of [Object.prototype]. *)
Inductive swarm_ref :=
| SwarmAt (key : jsstring) (swarm : Swarm.t)
| PrototypeMember (name : jsstring).

Definition _getSwarm (self : Server) (binaryInfoHash : jsstring)
  : Server * swarm_ref :=
  match get (torrents self) binaryInfoHash with
  | Own swarm => (self, SwarmAt binaryInfoHash swarm)
  | Inherited name => (self, PrototypeMember name)
  | Undefined =>
      let swarm := Swarm.mk 0 0 [] in
      ({| _intervalMs := _intervalMs self;
          torrents := put (torrents self) binaryInfoHash swarm;
          prototype_complete := prototype_complete self |},
       SwarmAt binaryInfoHash swarm)
  end.

(** The argument of [getSwarm]. *)
Inductive infoHash_arg :=
| IsBuffer (buf : Buffer)
| HexString (str : jsstring).

(** [None]: [new Buffer(infoHash, 'hex')] rejects the string. *)
Definition getSwarm (self : Server) (infoHash : infoHash_arg)
  : option (Server * swarm_ref) :=
  let binaryInfoHash :=
    match infoHash with
    | IsBuffer buf => Some (toString_binary buf)
    | HexString str => option_map toString_binary (Buffer_hex str)
    end in
  option_map (_getSwarm self) binaryInfoHash.

(** ** [Server.prototype._getPeers] *)

(** The [for..in] loop of [_getPeers], over the properties still to visit;
    [peers] is the array built so far. *)
Fixpoint _getPeers_loop (props : object (option Peer.t)) (numWant : number)
    (peers : list Peer.t) : list Peer.t :=
  match props with
  | [] => peers
  | (_, peer) :: props' =>
      if ge_number (List.length peers) numWant then peers          (* break *)
      else match peer with
           | None => _getPeers_loop props' numWant peers      (* continue *)
           | Some peer => _getPeers_loop props' numWant (peers ++ [peer])
           end
  end.

Definition _getPeers (swarm : Swarm.t) (numWant : number) : list Peer.t :=
  _getPeers_loop (Swarm.peers swarm) numWant [].

(** ** [Server.prototype._onSocketMessage] *)

(** The inner function [error]. *)
Definition error (socket : WebSocket) (message : string) : list effect :=
  [ Send socket (FailureReason message); Emit "warning" (Some message) ].

(** [!peer] for the result of [swarm.peers[peerId]]. *)
Definition absent (peer : property (option Peer.t)) : bool :=
  match peer with
  | Own (Some _) | Inherited _ => false
  | Own None | Undefined => true
  end.

(** [peer.complete], read as a condition, for a [peer] that is not absent. *)
Definition is_complete (self : Server) (peer : property (option Peer.t))
  : bool :=
  match peer with
  | Own (Some p) => Peer.complete p
  | Inherited name => existsb (eqs name) (prototype_complete self)
  | Own None | Undefined => false
  end.

(** How the [switch] is left. *)
Inductive switched :=
| Break (self : Server) (swarm : Swarm.t) (warning : option string)
    (emitted : list effect)
| Return (trace : list effect)
| Throw.

Definition set_complete (swarm : Swarm.t) (n : Z) : Swarm.t :=
  Swarm.mk n (Swarm.incomplete swarm) (Swarm.peers swarm).
Definition set_incomplete (swarm : Swarm.t) (n : Z) : Swarm.t :=
  Swarm.mk (Swarm.complete swarm) n (Swarm.peers swarm).
Definition set_peer (swarm : Swarm.t) (peerId : jsstring)
    (peer : option Peer.t) : Swarm.t :=
  Swarm.mk (Swarm.complete swarm) (Swarm.incomplete swarm)
    (put (Swarm.peers swarm) peerId peer).

Definition case_started (self : Server) (socket : WebSocket) (data : Message)
    (swarm : Swarm.t) (peerId : jsstring) (peer : property (option Peer.t))
  : switched :=
  if negb (absent peer) then
    Break self swarm
      (Some "unexpected `started` event from peer that is already in swarm") []
  else
    match left_is_zero data with
    | NumberThrows => Throw                       (* Number(data.left) *)
    | Converts left_is_zero =>
        let swarm :=
          if left_is_zero
          then set_complete swarm (Swarm.complete swarm + 1)
          else set_incomplete swarm (Swarm.incomplete swarm + 1) in
        let swarm :=
          set_peer swarm peerId (Some (Peer.mk socket peerId false)) in
        Break self swarm None [Emit "start" None]
    end.

Definition case_stopped (self : Server) (swarm : Swarm.t) (peerId : jsstring)
    (peer : property (option Peer.t)) : switched :=
  if absent peer then
    Break self swarm
      (Some "unexpected `stopped` event from peer that is not in swarm") []
  else
    let swarm :=
      if is_complete self peer
      then set_complete swarm (Swarm.complete swarm - 1)
      else set_incomplete swarm (Swarm.incomplete swarm - 1) in
    let swarm := set_peer swarm peerId None in
    Break self swarm None [Emit "stop" None].

(** [peer.complete = true] acts on what [peer] refers to: the peer held in
    the slot [peerId], or a member of [Object.prototype], which then gets a
    [complete] property of its own. *)
Definition case_completed (self : Server) (swarm : Swarm.t)
    (peerId : jsstring) (peer : property (option Peer.t)) : switched :=
  let counted :=
    set_incomplete (set_complete swarm (Swarm.complete swarm + 1))
      (Swarm.incomplete swarm - 1) in
  match peer with
  | Own None | Undefined =>
      Break self swarm
        (Some "unexpected `completed` event from peer that is not in swarm") []
  | Own (Some p) =>
      if Peer.complete p then
        Break self swarm
          (Some "unexpected `completed` event from peer that is already marked as completed") []
      else
        Break self
          (set_peer counted peerId
             (Some (Peer.mk (Peer.socket p) (Peer.peerId p) true)))
          None [Emit "complete" None]
  | Inherited name =>
      if existsb (eqs name) (prototype_complete self) then
        Break self swarm
          (Some "unexpected `completed` event from peer that is already marked as completed") []
      else
        Break {| _intervalMs := _intervalMs self;
                 torrents := torrents self;
                 prototype_complete := name :: prototype_complete self |}
          counted None [Emit "complete" None]
  end.

Definition case_update (self : Server) (swarm : Swarm.t)
    (peer : property (option Peer.t)) : switched :=
  if absent peer then
    Break self swarm
      (Some "unexpected `update` event from peer that is not in swarm") []
  else Break self swarm None [Emit "update" None].

Definition case_answered (self : Server) (socket : WebSocket) (data : Message)
    (swarm : Swarm.t) (peer : property (option Peer.t)) : switched :=
  if absent peer then
    Break self swarm
      (Some "unexpected `answered` event from peer that is not in swarm") []
  else
    match to_peer_id data with
    | None | Some [] => Return (error socket "invalid `to_peer_id`")
    | Some toPeerId =>
        match get (Swarm.peers swarm) toPeerId with
        | Own None | Undefined =>
            Return [Emit "warning" (Some "no peer with that `to_peer_id`")]
        | Own (Some toPeer) =>
            Return [Send (Peer.socket toPeer) (Answer (answer data));
                    Emit "answer" None]
        | Inherited _ => Throw   (* toPeer.socket is undefined *)
        end
    end.

Definition switch_event (self : Server) (socket : WebSocket) (data : Message)
    (swarm : Swarm.t) (peerId : jsstring) (peer : property (option Peer.t))
  : switched :=
  match event data with
  | EventString s =>
      if eqs s (js "started") then case_started self socket data swarm peerId peer
      else if eqs s (js "stopped") then case_stopped self swarm peerId peer
      else if eqs s (js "completed") then case_completed self swarm peerId peer
      else if eqs s (js "") then case_update self swarm peer
      else if eqs s (js "answered") then case_answered self socket data swarm peer
      else Return (error socket "invalid event")
  | EventUndefined => case_update self swarm peer
  | EventOther => Return (error socket "invalid event")
  end.

(** [Number(data.offers && data.offers.length) || 0]: a falsy
    [data.offers] is itself what [Number] gets, and gives [NaN] or [0]. *)
Definition offers_length (data : Message) : converted number :=
  match offers data with
  | OffersFalsy => Converts (Num (0 # 1))
  | OffersTruthy (Converts length) _ => Converts (or_zero length)
  | OffersTruthy NumberThrows _ => NumberThrows
  end.

(** [data.offers[i]], [None] for [undefined]. It is read for the peers to
    introduce only, of which there are none when [data.offers] is falsy. *)
Definition offers_at (data : Message) (i : nat) : option json :=
  match offers data with
  | OffersFalsy => None
  | OffersTruthy _ elements =>
      match nth_error elements i with
      | Some offer => offer
      | None => None
      end
  end.

(** [peers.forEach(function (peer, i) { peer.socket.send({ ... }) })], from
    index [i] on. *)
Fixpoint forEach_send (peers : list Peer.t) (i : nat) (data : Message)
    (peerId : jsstring) : list effect :=
  match peers with
  | [] => []
  | peer :: peers' =>
      Send (Peer.socket peer) (Introduction (offers_at data i) peerId)
        :: forEach_send peers' (S i) data peerId
  end.

(** The swarm object is reached from [torrents]: what the handler did to it
    shows under its key. *)
Definition store (self : Server) (key : jsstring) (swarm : Swarm.t) : Server :=
  {| _intervalMs := _intervalMs self;
     torrents := put (torrents self) key swarm;
     prototype_complete := prototype_complete self |}.

Definition _onSocketMessage (self : Server) (socket : WebSocket) (data : Data)
  : outcome :=
  match data with
  | NotJSON => Returned self (error socket "invalid socket message")
  | JSONNull => Thrown self []          (* data.info_hash on null *)
  | JSONValue data =>
      match info_hash data with
      | None | Some [] => Returned self (error socket "invalid info_hash")
      | Some infoHash =>
        if negb (List.length infoHash =? 20)%nat
        then Returned self (error socket "invalid info_hash")
        else
        match option_map binaryToUtf8 (peer_id data) with
        | None | Some [] => Returned self (error socket "invalid peer_id")
        | Some peerId =>
          if negb (List.length peerId =? 20)%nat
          then Returned self (error socket "invalid peer_id")
          else
          match _getSwarm self infoHash with
          | (self, PrototypeMember _) =>
              Thrown self []            (* swarm.peers is undefined *)
          | (self, SwarmAt key swarm) =>
              let peer := get (Swarm.peers swarm) peerId in
              match offers_length data with
              | NumberThrows => Thrown self []   (* Number(...), line 117 *)
              | Converts length =>
              let numWant := Math_min length MAX_ANNOUNCE_PEERS in
              match switch_event self socket data swarm peerId peer with
              | Throw => Thrown self []
              | Return trace => Returned self trace
              | Break self swarm warning emitted =>
                  let response :=
                    Response (Swarm.complete swarm) (Swarm.incomplete swarm)
                      (_intervalMs self) warning in
                  let peers := _getPeers swarm numWant in
                  Returned (store self key swarm)
                    (emitted ++ Send socket response
                       :: forEach_send peers 0 data peerId)
              end
              end
          end
        end
      end
  end.

(** Messages handled one after the other; a [TypeError] ends the run. *)
Fixpoint handle_all (self : Server) (msgs : list (WebSocket * Data))
  : outcome :=
  match msgs with
  | [] => Returned self []
  | (socket, data) :: msgs' =>
      match _onSocketMessage self socket data with
      | Returned self trace =>
          match handle_all self msgs' with
          | Returned self' trace' => Returned self' (trace ++ trace')
          | Thrown self' trace' => Thrown self' (trace ++ trace')
          end
      | Thrown self trace => Thrown self trace
      end
  end.

(** ** The reconnecting client [Socket] *)

Module Socket.

Definition RECONNECT_TIMEOUT : N := 5000.

(** A browser [WebSocket] created by [_init], as far as the [Socket] acts
    on it: whether its four handler properties are set (they are set and
    cleared together), and whether the [once] wrapper put in [onerror] has
    already run. *)
Record connection := {
  handlers : bool;
  onerror_called : bool
}.

(** The fields of a [Socket], the connections it has created so far (a
    connection is known by its position), and the timeouts it has set
    that have not fired yet. [_ws] is [None] when it is [null]. *)
Record t := {
  _url : jsstring;
  _reconnectTimeout : N;
  _errored : bool;
  _ws : option nat;
  created : list connection;
  timeouts : nat
}.

(** The calls a [Socket] makes on its collaborators. *)
Inductive effect :=
| new_WebSocket (url : jsstring)
| ws_close (ws : nat)                       (* this._ws.close() *)
| setTimeout_init (ms : N)                  (* setTimeout(this._init.bind(this), ms) *)
| emit_ready
| emit_close
| emit_warning (ws : nat)                   (* the error event of connection ws *)
| emit_message (data : jsstring) (parsed : bool)
| console_log (data : jsstring).

(** The events a connection reports. *)
Inductive report :=
| onopen
| onmessage (data : jsstring) (is_json : bool)
| onclose
| onerror.

(** What can happen to a [Socket]: a connection reports an event, a
    timeout fires, or the owner calls [close]. *)
Inductive input :=
| Fire (ws : nat) (r : report)
| Timeout
| Call_close.

Fixpoint update (l : list connection) (ws : nat) (c : connection)
  : list connection :=
  match l, ws with
  | [], _ => []
  | _ :: l', O => c :: l'
  | x :: l', S n => x :: update l' n c
  end.

Definition _init (self : t) : t * list effect :=
  ({| _url := _url self;
      _reconnectTimeout := _reconnectTimeout self;
      _errored := false;
      _ws := Some (List.length (created self));
      created := created self
                   ++ [{| handlers := true; onerror_called := false |}];
      timeouts := timeouts self |},
   [new_WebSocket (_url self)]).

(** [function Socket (url, opts)]; [reconnectTimeout] is
    [opts.reconnectTimeout] when it is a number. *)
Definition new_Socket (url : jsstring) (reconnectTimeout : option N)
  : t * list effect :=
  _init {| _url := url;
           _reconnectTimeout :=
             match reconnectTimeout with
             | Some ms => if (ms =? 0)%N then RECONNECT_TIMEOUT else ms
             | None => RECONNECT_TIMEOUT
             end;
           _errored := false;
           _ws := None;
           created := [];
           timeouts := 0 |}.

Definition _onopen (self : t) : t * list effect := (self, [emit_ready]).

Definition _onclose (self : t) : t * list effect :=
  ({| _url := _url self;
      _reconnectTimeout := _reconnectTimeout self;
      _errored := _errored self;
      _ws := None;
      created :=
        match _ws self with
        | Some ws =>
            match nth_error (created self) ws with
            | Some c =>
                update (created self) ws
                  {| handlers := false; onerror_called := onerror_called c |}
            | None => created self
            end
        | None => created self
        end;
      timeouts := timeouts self |},
   if _errored self then [] else [emit_close]).

(** [this._ws.close()] throws when [this._ws] is [null]. *)
Definition close (self : t) : t * list effect :=
  match _ws self with
  | Some ws => (self, [ws_close ws])
  | None => _onclose self
  end.

(** [err] is the error event of the connection [ws]. *)
Definition _onerror (self : t) (ws : nat) : t * list effect :=
  let self :=
    {| _url := _url self;
       _reconnectTimeout := _reconnectTimeout self;
       _errored := true;
       _ws := _ws self;
       created := created self;
       timeouts := timeouts self |} in
  let (self, closing) := close self in
  ({| _url := _url self;
      _reconnectTimeout := _reconnectTimeout self;
      _errored := _errored self;
      _ws := _ws self;
      created := created self;
      timeouts := S (timeouts self) |},
   closing ++ [setTimeout_init (_reconnectTimeout self); emit_warning ws]).

Definition _onmessage (self : t) (data : jsstring) (is_json : bool)
  : t * list effect :=
  (self, [console_log data; emit_message data is_json]).

(** The wrapper [once(this._onerror.bind(this))] of connection [ws] is
    marked as called. *)
Definition called (self : t) (ws : nat) (c : connection) : t :=
  {| _url := _url self;
     _reconnectTimeout := _reconnectTimeout self;
     _errored := _errored self;
     _ws := _ws self;
     created := update (created self) ws
                  {| handlers := handlers c; onerror_called := true |};
     timeouts := timeouts self |}.

(** One turn of the event loop. A connection whose handlers are [null]
    reaches nobody. *)
Definition step (self : t) (i : input) : t * list effect :=
  match i with
  | Fire ws r =>
      match nth_error (created self) ws with
      | Some c =>
          if handlers c then
            match r with
            | onopen => _onopen self
            | onmessage data is_json => _onmessage self data is_json
            | onclose => _onclose self
            | onerror =>
                if onerror_called c then (self, [])
                else _onerror (called self ws c) ws
            end
          else (self, [])
      | None => (self, [])
      end
  | Timeout =>
      match timeouts self with
      | O => (self, [])
      | S n =>
          _init {| _url := _url self;
                   _reconnectTimeout := _reconnectTimeout self;
                   _errored := _errored self;
                   _ws := _ws self;
                   created := created self;
                   timeouts := n |}
      end
  | Call_close => close self
  end.

Fixpoint run (self : t) (inputs : list input) : t * list effect :=
  match inputs with
  | [] => (self, [])
  | i :: inputs' =>
      let (self, trace) := step self i in
      let (self, trace') := run self inputs' in
      (self, trace ++ trace')
  end.

End Socket.

(** ** Vocabulary of the statements *)

(** *** Swarms *)

(** The entries of [peers] that are not [null], in the order of [for..in]. *)
Fixpoint present_peers (props : object (option Peer.t)) : list Peer.t :=
  match props with
  | [] => []
  | (_, Some peer) :: props' => peer :: present_peers props'
  | (_, None) :: props' => present_peers props'
  end.

Definition present (swarm : Swarm.t) : list Peer.t :=
  present_peers (Swarm.peers swarm).

Definition population (swarm : Swarm.t) : Z :=
  Swarm.complete swarm + Swarm.incomplete swarm.

(** [complete + incomplete] is the number of entries that are not [null]. *)
Definition counted (swarm : Swarm.t) : Prop :=
  population swarm = Z.of_nat (List.length (present swarm)).

Definition all_counted (self : Server) : Prop :=
  forall key swarm, own (torrents self) key = Some swarm -> counted swarm.

(** The swarm a key stands for: the one stored in [torrents], or the one
    [_getSwarm] would create. *)
Definition swarm_at (self : Server) (key : jsstring) : Swarm.t :=
  match own (torrents self) key with
  | Some swarm => swarm
  | None => Swarm.mk 0 0 []
  end.

(** The read [self.torrents[key]] does not fall through to
    [Object.prototype]: [key] is not the name of one of its members, or a
    swarm is stored under it. *)
Definition resolves (self : Server) (key : jsstring) : Prop :=
  get (torrents self) key <> Inherited key.

(** The swarm after an accepted [started], and after a [stopped] of a peer
    that is in it. *)
Definition after_started (swarm : Swarm.t) (socket : WebSocket)
    (peerId : jsstring) (left_zero : bool) : Swarm.t :=
  set_peer
    (if left_zero
     then set_complete swarm (Swarm.complete swarm + 1)
     else set_incomplete swarm (Swarm.incomplete swarm + 1))
    peerId (Some (Peer.mk socket peerId false)).

Definition after_stopped (swarm : Swarm.t) (peerId : jsstring)
    (was_complete : bool) : Swarm.t :=
  set_peer
    (if was_complete
     then set_complete swarm (Swarm.complete swarm - 1)
     else set_incomplete swarm (Swarm.incomplete swarm - 1))
    peerId None.

(** *** Messages *)

(** A message with the given ids that passes the checks of lines 108-111;
    [peerId] is the decoded [peer_id]. *)
Definition addressed (data : Message) (infoHash peerId : jsstring) : Prop :=
  info_hash data = Some infoHash /\
  option_map binaryToUtf8 (peer_id data) = Some peerId /\
  List.length infoHash = 20%nat /\ List.length peerId = 20%nat.

(** The decoded peer id of a message is not the name of a member of
    [Object.prototype]. *)
Definition plain_peer_id (data : Data) : Prop :=
  match data with
  | JSONValue data =>
      match peer_id data with
      | Some str => inherited (binaryToUtf8 str) = false
      | None => True
      end
  | _ => True
  end.

(** The value of [data.event] is one of the [case] labels. *)
Definition recognised (e : event_field) : bool :=
  match e with
  | EventUndefined => true
  | EventString s =>
      eqs s (js "started") || eqs s (js "stopped") || eqs s (js "completed")
      || eqs s (js "") || eqs s (js "answered")
  | EventOther => false
  end.

(** [data.offers] when it is the array [l] (or a string, of which [l] are
    the characters): its length is the number of its elements. *)
Definition offers_array (l : list json) : offers_field :=
  OffersTruthy (Converts (Num (inject_Z (Z.of_nat (List.length l)))))
    (map Some l).

(** [Number] converts the length of [data.offers]. *)
Definition offers_convert (data : Message) : Prop :=
  exists length, offers_length data = Converts length.

(** [Number] converts [data.left]. *)
Definition left_converts (data : Message) : Prop :=
  exists zero, left_is_zero data = Converts zero.

(** The message supplies the offers [l]: [data.offers] is the array [l],
    or it is missing (or falsy) and there is none. *)
Definition supplies (data : Message) (l : list json) : Prop :=
  offers data = offers_array l \/ offers data = OffersFalsy /\ l = [].

(** The number of peers at which the loop of [_getPeers] stops: the least
    length that is [>= numWant]; [None] when no length is. *)
Definition wanted (numWant : number) : option nat :=
  match numWant with
  | NaN | PlusInfinity => None
  | Num q => Some (Z.to_nat (Qceiling q))
  | MinusInfinity => Some 0%nat
  end.

(** The first [k] elements, all of them for [None]. *)
Definition take {A} (k : option nat) (l : list A) : list A :=
  match k with
  | Some n => firstn n l
  | None => l
  end.

(** An announce as a client builds it: [left] is a number, [offers] an
    array or missing. *)
Definition announce (infoHash peerId : jsstring) (event : string)
    (left_is_zero : bool) (offers : option (list json)) : Message :=
  {| info_hash := Some infoHash;
     peer_id := Some peerId;
     event := EventString (js event);
     left_is_zero := Converts left_is_zero;
     offers := match offers with
               | Some l => offers_array l
               | None => OffersFalsy
               end;
     to_peer_id := None;
     answer := None |}.

Definition answered (infoHash peerId toPeerId : jsstring) (answer : jsstring)
  : Message :=
  {| info_hash := Some infoHash;
     peer_id := Some peerId;
     event := EventString (js "answered");
     left_is_zero := Converts false;
     offers := OffersFalsy;
     to_peer_id := Some toPeerId;
     answer := Some answer |}.

(** *** Outcomes and traces *)

(** The state a call, or a run of calls, ends in. *)
Definition final (o : outcome) : Server :=
  match o with
  | Returned self _ | Thrown self _ => self
  end.

Definition trace_of (o : outcome) : list effect :=
  match o with
  | Returned _ trace | Thrown _ trace => trace
  end.

Definition returned (o : outcome) : bool :=
  match o with
  | Returned _ _ => true
  | Thrown _ _ => false
  end.

Definition is_response (e : effect) : bool :=
  match e with
  | Send _ (Response _ _ _ _) => true
  | _ => false
  end.

Definition is_emit (e : effect) : bool :=
  match e with
  | Emit _ _ => true
  | Send _ _ => false
  end.

(** The response and the pushes that follow the [switch] (lines 205-222);
    [length] is what line 117 made of the length of [data.offers]. *)
Definition reply (self : Server) (socket : WebSocket) (data : Message)
    (peerId : jsstring) (swarm : Swarm.t) (warning : option string)
    (length : number) : list effect :=
  Send socket
    (Response (Swarm.complete swarm) (Swarm.incomplete swarm)
       (_intervalMs self) warning)
  :: forEach_send
       (_getPeers swarm (Math_min length MAX_ANNOUNCE_PEERS))
       0 data peerId.

(** What the handler makes of the way the [switch] is left. *)
Definition respond (socket : WebSocket) (data : Message)
    (infoHash peerId : jsstring) (self : Server) (length : number)
    (s : switched) : outcome :=
  match s with
  | Throw => Thrown self []
  | Return trace => Returned self trace
  | Break self' swarm warning emitted =>
      Returned (store self' infoHash swarm)
        (emitted ++ reply self' socket data peerId swarm warning length)
  end.

(** *** The servers and messages of the examples *)

Definition hash_a : jsstring := js "aaaaaaaaaaaaaaaaaaaa".
Definition peer_1 : jsstring := js "11111111111111111111".
Definition peer_2 : jsstring := js "22222222222222222222".
Definition propertyIsEnumerable : jsstring := js "propertyIsEnumerable".

(** A server whose swarm [hash_a] holds [peer_1], a leecher, on
    connection 1. *)
Definition one_leecher : Server :=
  final (_onSocketMessage (new_Server None) 1%nat
           (JSONValue (announce hash_a peer_1 "started" false None))).


(** [peer_2] starts in [hash_a] with one offer, after [peer_1]. *)
Definition second_peer_starts : outcome :=
  _onSocketMessage one_leecher 2%nat
    (JSONValue (announce hash_a peer_2 "started" false (Some [js "o1"]))).

(** [peer_2] starts in [hash_a] with [offers: {"length": 2}], an object
    that holds no offer. *)
Definition length_without_offers : Message :=
  {| info_hash := Some hash_a;
     peer_id := Some peer_2;
     event := EventString (js "started");
     left_is_zero := Converts false;
     offers := OffersTruthy (Converts (Num (2 # 1))) [];
     to_peer_id := None;
     answer := None |}.

(** [one_leecher] after [peer_2] has started too, on connection 2. *)
Definition two_leechers : Server :=
  final (_onSocketMessage one_leecher 2%nat
           (JSONValue (announce hash_a peer_2 "started" false None))).

Definition peer_3 : jsstring := js "33333333333333333333".

(** [peer_3] starts in [hash_a] with [offers: {"length": 2.5}]. *)
Definition fractional_length : Message :=
  {| info_hash := Some hash_a;
     peer_id := Some peer_3;
     event := EventString (js "started");
     left_is_zero := Converts false;
     offers := OffersTruthy (Converts (Num (5 # 2))) [];
     to_peer_id := None;
     answer := None |}.

(** An update from [peer_1] in [hash_a] with
    [offers: {"length": {"valueOf": 0, "toString": 0}}]. *)
Definition unconvertible_offers : Message :=
  {| info_hash := Some hash_a;
     peer_id := Some peer_1;
     event := EventUndefined;
     left_is_zero := Converts false;
     offers := OffersTruthy NumberThrows [];
     to_peer_id := None;
     answer := None |}.

(** [peer_1], already in [hash_a], sends [started] and then [stopped] on a
    second connection. *)
Definition restart_then_stop : outcome :=
  handle_all one_leecher
    [ (2%nat, JSONValue (announce hash_a peer_1 "started" false None));
      (2%nat, JSONValue (announce hash_a peer_1 "stopped" false None)) ].

(** *** The reconnecting socket *)

Definition is_emit_warning (e : Socket.effect) : bool :=
  match e with
  | Socket.emit_warning _ => true
  | _ => false
  end.

Definition is_emit_close (e : Socket.effect) : bool :=
  match e with
  | Socket.emit_close => true
  | _ => false
  end.

(** No [warning] and no [close] is emitted. *)
Definition quiet (trace : list Socket.effect) : bool :=
  forallb (fun e => negb (is_emit_warning e || is_emit_close e)) trace.

Definition warnings (trace : list Socket.effect) : nat :=
  List.length (filter is_emit_warning trace).

(** What happens during the connection attempt [ws]: that connection
    reports events and the owner may call [close]; the timeout that starts
    the next attempt has not fired, and no earlier connection reports
    anything any more. *)
Definition during (ws : nat) (i : Socket.input) : bool :=
  match i with
  | Socket.Fire ws' _ => Nat.eqb ws' ws
  | Socket.Call_close => true
  | Socket.Timeout => false
  end.

(** What happens during the attempt [ws] while the connection is up: it
    opens, carries messages, and the owner may call [close]; it reports
    neither an error nor its close. *)
Definition calm (ws : nat) (i : Socket.input) : bool :=
  match i with
  | Socket.Fire ws' Socket.onopen
  | Socket.Fire ws' (Socket.onmessage _ _) => Nat.eqb ws' ws
  | Socket.Fire _ _ => false
  | Socket.Call_close => true
  | Socket.Timeout => false
  end.

(** The warnings that carry the error event of connection [ws]. *)
Definition warnings_of (ws : nat) (trace : list Socket.effect) : nat :=
  List.length
    (filter (fun e => match e with
                      | Socket.emit_warning w => Nat.eqb w ws
                      | _ => false
                      end) trace).

(** 1 when the [once] wrapper of connection [ws] has run, 0 before. *)
Definition spent (ws : nat) (self : Socket.t) : nat :=
  match nth_error (Socket.created self) ws with
  | Some c => if Socket.onerror_called c then 1 else 0
  | None => 0
  end.

(** The attempt [ws] is under way. *)
Definition trying (ws : nat) (self : Socket.t) : Prop :=
  Socket._errored self = false /\ Socket._ws self = Some ws /\
  nth_error (Socket.created self) ws
  = Some {| Socket.handlers := true; Socket.onerror_called := false |}.

(** The attempt [ws] has ended in an error: [_errored] is set, a timeout is
    pending, and the error handler of [ws] cannot run again. *)
Definition failed (ws : nat) (self : Socket.t) : Prop :=
  Socket._errored self = true /\
  (0 < Socket.timeouts self)%nat /\
  exists c, nth_error (Socket.created self) ws = Some c /\
            (Socket.handlers c = false \/ Socket.onerror_called c = true).

Definition a_url : jsstring := js "ws://tracker".

(** The fields of a [Socket] before its first [_init]. *)
Definition unconnected (url : jsstring) (reconnectTimeout : N) : Socket.t :=
  {| Socket._url := url;
     Socket._reconnectTimeout := reconnectTimeout;
     Socket._errored := false;
     Socket._ws := None;
     Socket.created := [];
     Socket.timeouts := 0 |}.

(** A connection reports an error twice and is then closed. *)
Definition failing_attempt : list Socket.input :=
  [ Socket.Fire 0 Socket.onerror; Socket.Fire 0 Socket.onerror;
    Socket.Fire 0 Socket.onclose ].

(** *** More vocabulary for the server *)

(** The entries that are not [null] and carry [complete: true]. *)
Definition marked (props : object (option Peer.t)) : nat :=
  List.length (filter Peer.complete (present_peers props)).

(** [complete] covers the entries marked complete. *)
Definition seeded (swarm : Swarm.t) : Prop :=
  (Z.of_nat (marked (Swarm.peers swarm)) <= Swarm.complete swarm)%Z.

Definition all_seeded (self : Server) : Prop :=
  forall key swarm, own (torrents self) key = Some swarm -> seeded swarm.

(** The value is a string of length 20 (lines 108-111). *)
Definition well_sized (x : option jsstring) : bool :=
  match x with
  | Some s => (List.length s =? 20)%nat
  | None => false
  end.

(** A reply to the sender: the response or a failure. *)
Definition is_reply (e : effect) : bool :=
  match e with
  | Send _ (Response _ _ _ _) | Send _ (FailureReason _) => true
  | _ => false
  end.

Definition is_introduction (e : effect) : bool :=
  match e with
  | Send _ (Introduction _ _) => true
  | _ => false
  end.

(** A reply goes on [socket]. *)
Definition reply_on (socket : WebSocket) (e : effect) : bool :=
  match e with
  | Send s (Response _ _ _ _) | Send s (FailureReason _) => Nat.eqb s socket
  | _ => true
  end.

(** A response carries the interval [q]. *)
Definition carries (q : Q) (e : effect) : Prop :=
  match e with
  | Send _ (Response _ _ q' _) => q' = q
  | _ => True
  end.

(** *** [Socket.prototype.send] *)

(** [WebSocket.readyState]. *)
Inductive ready_state := CONNECTING | OPEN | CLOSING | CLOSED.

(** The argument of [send]: a string, or a value with [typeof message ===
    'object'], given with the text [JSON.stringify] makes of it. *)
Inductive outgoing :=
| text (message : jsstring)
| object_ (stringified : jsstring).

(** The calls [send] makes. *)
Inductive send_effect :=
| console_log_send (message : jsstring)   (* '[websocket send] ' + message *)
| ws_send (ws : nat) (message : jsstring).

(** [readyState] tells the state each connection is in when [send] is
    called. *)
Definition send (self : Socket.t) (readyState : nat -> ready_state)
    (message : outgoing) : list send_effect :=
  match Socket._ws self with
  | Some ws =>
      match readyState ws with
      | OPEN =>
          let message :=
            match message with
            | text s => s
            | object_ stringified => stringified
            end in
          [console_log_send message; ws_send ws message]
      | _ => []
      end
  | None => []
  end.

(** *** More vocabulary for the socket *)

Definition is_setTimeout (e : Socket.effect) : bool :=
  match e with
  | Socket.setTimeout_init _ => true
  | _ => false
  end.

Definition is_new_WebSocket (e : Socket.effect) : bool :=
  match e with
  | Socket.new_WebSocket _ => true
  | _ => false
  end.

Definition count (f : Socket.effect -> bool) (trace : list Socket.effect)
  : nat :=
  List.length (filter f trace).

(** A connection that fails: it reports the error, then its close, and the
    timeout fires. *)
Definition failed_cycle (ws : nat) : list Socket.input :=
  [ Socket.Fire ws Socket.onerror; Socket.Fire ws Socket.onclose;
    Socket.Timeout ].

(** [n] connections in a row fail, the first being [ws]. *)
Fixpoint failed_cycles (ws n : nat) : list Socket.input :=
  match n with
  | O => []
  | S n' => failed_cycle ws ++ failed_cycles (S ws) n'
  end.

(** What the socket does over those [n] failures. *)
Fixpoint failed_cycles_trace (url : jsstring) (ms : N) (ws n : nat)
  : list Socket.effect :=
  match n with
  | O => []
  | S n' =>
      [ Socket.ws_close ws; Socket.setTimeout_init ms; Socket.emit_warning ws;
        Socket.new_WebSocket url ]
      ++ failed_cycles_trace url ms (S ws) n'
  end.

(** [ws] is the connection [_init] has just created. *)
Definition fresh_attempt (ws : nat) (self : Socket.t) : Prop :=
  trying ws self /\ List.length (Socket.created self) = S ws.

(** The text [send] logs and writes for [message]. *)
Definition payload (message : outgoing) : jsstring :=
  match message with
  | text s => s
  | object_ stringified => stringified
  end.

(** [_ws], when it is not [null], is the connection created last, and its
    handlers are set. *)
Definition current_is_newest (self : Socket.t) : Prop :=
  match Socket._ws self with
  | Some ws =>
      S ws = List.length (Socket.created self) /\
      exists c, nth_error (Socket.created self) ws = Some c /\
                Socket.handlers c = true
  | None => True
  end.

(** No connection reports an error. *)
Definition no_error (i : Socket.input) : bool :=
  match i with
  | Socket.Fire _ Socket.onerror => false
  | _ => true
  end.

(** * Properties *)

(** ** Strings and objects *)

Lemma eqs_true_iff (a b : jsstring) : eqs a b = true <-> a = b.
Proof.
  revert b; induction a as [|x a IH]; intros [|y b]; simpl;
    try (split; [discriminate | congruence]); try tauto.
  rewrite andb_true_iff, N.eqb_eq, IH.
  split; [intros [-> ->]; reflexivity | intros [= -> ->]; auto].
Qed.

Lemma eqs_refl (a : jsstring) : eqs a a = true.
Proof. apply eqs_true_iff; reflexivity. Qed.

Lemma eqs_false_iff (a b : jsstring) : eqs a b = false <-> a <> b.
Proof.
  rewrite <- eqs_true_iff. destruct (eqs a b); split; congruence.
Qed.

Lemma eqs_sym (a b : jsstring) : eqs a b = eqs b a.
Proof.
  destruct (eqs b a) eqn:E.
  - apply eqs_true_iff in E; subst; apply eqs_refl.
  - apply eqs_false_iff in E; apply eqs_false_iff; congruence.
Qed.

Section Objects.
Context {V : Type}.
Implicit Types (o : object V) (k : jsstring) (v : V).

Lemma own_put_same o k v : own (put o k v) k = Some v.
Proof.
  induction o as [|[k' v'] o IH]; simpl.
  - now rewrite eqs_refl.
  - destruct (eqs k' k) eqn:E; simpl; rewrite E; auto.
Qed.

Lemma own_put_other o k k' v : k <> k' -> own (put o k v) k' = own o k'.
Proof.
  intros Hne. induction o as [|[k0 v0] o IH]; simpl.
  - apply eqs_false_iff in Hne. now rewrite Hne.
  - destruct (eqs k0 k) eqn:E; simpl.
    + apply eqs_true_iff in E; subst k0.
      apply eqs_false_iff in Hne. now rewrite Hne.
    + now rewrite IH.
Qed.

Lemma put_own_same o k v : own o k = Some v -> put o k v = o.
Proof.
  induction o as [|[k' v'] o IH]; simpl; [discriminate|].
  destruct (eqs k' k) eqn:E.
  - now intros [= ->].
  - intros H; now rewrite IH.
Qed.

Lemma put_put o k v v' : put (put o k v) k v' = put o k v'.
Proof.
  induction o as [|[k' v0] o IH]; simpl.
  - now rewrite eqs_refl.
  - destruct (eqs k' k) eqn:E; simpl; rewrite E; [reflexivity|].
    now rewrite IH.
Qed.

Lemma get_put_same o k v : get (put o k v) k = Own v.
Proof. unfold get. now rewrite own_put_same. Qed.

Lemma get_put_other o k k' v : k <> k' -> get (put o k v) k' = get o k'.
Proof. intros H. unfold get. now rewrite own_put_other. Qed.

Lemma get_Own o k v : get o k = Own v <-> own o k = Some v.
Proof.
  unfold get. destruct (own o k); [|destruct (inherited k)];
    split; congruence.
Qed.

Lemma get_not_inherited o k :
  inherited k = false ->
  get o k = match own o k with Some v => Own v | None => Undefined end.
Proof. intros H. unfold get. now rewrite H. Qed.

End Objects.

(** ** The handler on a message that passes validation *)

Lemma resolves_plain self key : inherited key = false -> resolves self key.
Proof.
  intros H. unfold resolves. rewrite (get_not_inherited _ _ H).
  now destruct (own (torrents self) key).
Qed.

Lemma resolves_own self key swarm :
  own (torrents self) key = Some swarm -> resolves self key.
Proof. intros H. unfold resolves, get. now rewrite H. Qed.

Lemma resolves_store self key swarm : resolves (store self key swarm) key.
Proof. apply (resolves_own _ _ swarm). simpl. apply own_put_same. Qed.

Lemma _getSwarm_swarm_at self key :
  resolves self key ->
  _getSwarm self key
  = (store self key (swarm_at self key), SwarmAt key (swarm_at self key)).
Proof.
  unfold resolves, _getSwarm, swarm_at, store, get.
  destruct (own (torrents self) key) as [swarm|] eqn:E.
  - intros _. rewrite (put_own_same _ _ _ E). now destruct self.
  - destruct (inherited key); [congruence|reflexivity].
Qed.

Lemma swarm_at_store self key swarm : swarm_at (store self key swarm) key = swarm.
Proof. unfold swarm_at, store; simpl. now rewrite own_put_same. Qed.

Lemma swarm_at_store_other self key key' swarm :
  key <> key' -> swarm_at (store self key swarm) key' = swarm_at self key'.
Proof. intros H. unfold swarm_at, store; simpl. now rewrite own_put_other. Qed.

Lemma store_store self key swarm swarm' :
  store (store self key swarm) key swarm' = store self key swarm'.
Proof. unfold store; simpl. now rewrite put_put. Qed.

Lemma store_swarm_at self key swarm :
  own (torrents self) key = Some swarm -> store self key swarm = self.
Proof.
  intros H. unfold store. rewrite (put_own_same _ _ _ H). now destruct self.
Qed.

Lemma _onSocketMessage_addressed self socket data infoHash peerId length :
  addressed data infoHash peerId ->
  resolves self infoHash ->
  offers_length data = Converts length ->
  _onSocketMessage self socket (JSONValue data)
  = let self1 := store self infoHash (swarm_at self infoHash) in
    let swarm := swarm_at self infoHash in
    respond socket data infoHash peerId self1 length
      (switch_event self1 socket data swarm peerId
         (get (Swarm.peers swarm) peerId)).
Proof.
  intros (Hi & Hp & Li & Lp) Hk Hl. unfold _onSocketMessage.
  rewrite Hi, Hp, Li, Lp, (_getSwarm_swarm_at _ _ Hk), Hl. simpl.
  destruct infoHash; [discriminate|]. destruct peerId; [discriminate|].
  unfold respond.
  now destruct switch_event.
Qed.

(** [Number] cannot convert the length of [data.offers]: line 117 throws,
    after [_getSwarm] and before the [switch]. *)
Lemma _onSocketMessage_unconvertible self socket data infoHash peerId :
  addressed data infoHash peerId ->
  resolves self infoHash ->
  offers_length data = NumberThrows ->
  _onSocketMessage self socket (JSONValue data)
  = Thrown (store self infoHash (swarm_at self infoHash)) [].
Proof.
  intros (Hi & Hp & Li & Lp) Hk Hl. unfold _onSocketMessage.
  rewrite Hi, Hp, Li, Lp, (_getSwarm_swarm_at _ _ Hk), Hl. simpl.
  destruct infoHash; [discriminate|]. now destruct peerId.
Qed.

(** ** The sum of the counters and the entries of [peers] *)

Lemma present_put_fresh props k v :
  own props k = None ->
  present_peers (put props k v)
  = present_peers props ++ match v with Some p => [p] | None => [] end.
Proof.
  induction props as [|[k' [p|]] props IH]; simpl.
  - now destruct v.
  - destruct (eqs k' k); [discriminate|]. intros H; simpl. now rewrite IH.
  - destruct (eqs k' k); [discriminate|]. intros H; simpl. now rewrite IH.
Qed.

Lemma present_put_null props k p :
  own props k = Some (Some p) ->
  S (List.length (present_peers (put props k None)))
  = List.length (present_peers props).
Proof.
  induction props as [|[k' [q|]] props IH]; simpl; [discriminate| |].
  - destruct (eqs k' k); simpl; [reflexivity|].
    intros H. now rewrite <- (IH H).
  - destruct (eqs k' k); simpl; [discriminate|]. apply IH.
Qed.

Lemma present_put_over_null props k p :
  own props k = Some None ->
  List.length (present_peers (put props k (Some p)))
  = S (List.length (present_peers props)).
Proof.
  induction props as [|[k' [q|]] props IH]; simpl; [discriminate| |].
  - destruct (eqs k' k); simpl; [discriminate|].
    intros H. now rewrite (IH H).
  - destruct (eqs k' k); simpl; [reflexivity|]. apply IH.
Qed.

Lemma present_put_over_peer props k p q :
  own props k = Some (Some p) ->
  List.length (present_peers (put props k (Some q)))
  = List.length (present_peers props).
Proof.
  induction props as [|[k' [r|]] props IH]; simpl; [discriminate| |].
  - destruct (eqs k' k); simpl; [reflexivity|].
    intros H. now rewrite (IH H).
  - destruct (eqs k' k); simpl; [discriminate|]. apply IH.
Qed.

(** The [switch] touches neither [torrents] nor the interval. *)
Lemma switch_event_frame self socket data swarm peerId peer self' swarm' w em :
  switch_event self socket data swarm peerId peer = Break self' swarm' w em ->
  torrents self' = torrents self /\ _intervalMs self' = _intervalMs self.
Proof.
  unfold switch_event, case_started, case_stopped, case_completed,
    case_update, case_answered.
  intros H.
  repeat match type of H with
         | context [match ?x with _ => _ end] => destruct x
         end; inversion H; subst; simpl; auto.
Qed.

(** For a peer id that names no member of [Object.prototype], every case
    of the [switch] keeps the sum of the counters equal to the number of
    entries that are not [null]. *)
Lemma switch_event_counted self socket data swarm peerId self' swarm' w em :
  inherited peerId = false ->
  counted swarm ->
  switch_event self socket data swarm peerId (get (Swarm.peers swarm) peerId)
  = Break self' swarm' w em ->
  counted swarm'.
Proof.
  intros Hk Hc. rewrite (get_not_inherited _ _ Hk).
  unfold counted, population, present in *.
  destruct swarm as [c i props]; simpl in *.
  unfold switch_event, case_started, case_stopped, case_completed,
    case_update, case_answered.
  destruct (own props peerId) as [[p|]|] eqn:E; simpl; intros H;
    repeat match type of H with
           | context [match ?x with _ => _ end] => destruct x
           end; inversion H; subst; clear H; simpl; auto;
    try (rewrite (present_put_fresh _ _ _ E), length_app; simpl; lia);
    try (rewrite (present_put_over_null _ _ _ E); lia);
    try (rewrite (present_put_over_peer _ _ _ _ E); lia);
    try (pose proof (present_put_null _ _ _ E); lia).
Qed.

Lemma all_counted_store self key swarm :
  all_counted self -> counted swarm -> all_counted (store self key swarm).
Proof.
  intros Ha Hc key' swarm'. unfold store; simpl.
  destruct (eqs key key') eqn:E.
  - apply eqs_true_iff in E; subst. rewrite own_put_same. now intros [= <-].
  - apply eqs_false_iff in E. rewrite (own_put_other _ _ _ _ E). apply Ha.
Qed.

Lemma swarm_at_counted self key : all_counted self -> counted (swarm_at self key).
Proof.
  intros Ha. unfold swarm_at.
  destruct (own (torrents self) key) eqn:E; [now apply (Ha key)|reflexivity].
Qed.

Lemma _getSwarm_SwarmAt self key self1 k swarm :
  _getSwarm self key = (self1, SwarmAt k swarm) ->
  k = key /\ swarm = swarm_at self key /\ self1 = store self key swarm.
Proof.
  unfold _getSwarm, swarm_at, get, store.
  destruct (own (torrents self) key) as [s|] eqn:E.
  - intros [= <- <- <-]. rewrite (put_own_same _ _ _ E). now destruct self.
  - destruct (inherited key); [discriminate|]. now intros [= <- <- <-].
Qed.

Lemma _getSwarm_PrototypeMember self key self1 name :
  _getSwarm self key = (self1, PrototypeMember name) -> self1 = self.
Proof.
  unfold _getSwarm, get.
  destruct (own (torrents self) key); [discriminate|].
  destruct (inherited key); [|discriminate]. now intros [= <- _].
Qed.

(** One message from a peer whose id names no member of
    [Object.prototype] keeps every swarm counted. *)
Lemma _onSocketMessage_counted self socket data :
  plain_peer_id data ->
  all_counted self ->
  all_counted (final (_onSocketMessage self socket data)).
Proof.
  intros Hplain Ha.
  destruct data as [| |m]; simpl; auto.
  simpl in Hplain.
  destruct (info_hash m) as [[|c infoHash]|]; simpl; auto.
  destruct (List.length infoHash =? 19)%nat; simpl; auto.
  destruct (peer_id m) as [str|]; simpl; auto.
  destruct (binaryToUtf8 str) as [|d peerId] eqn:Hd; simpl; auto.
  destruct (List.length peerId =? 19)%nat; simpl; auto.
  destruct (_getSwarm self (c :: infoHash)) as [self1 [k swarm|name]] eqn:G.
  - apply _getSwarm_SwarmAt in G. destruct G as (-> & -> & ->).
    set (swarm := swarm_at self (c :: infoHash)).
    assert (Hs : counted swarm) by now apply swarm_at_counted.
    assert (Ha1 : all_counted (store self (c :: infoHash) swarm))
      by now apply all_counted_store.
    destruct (offers_length m) as [len|]; simpl; auto.
    destruct switch_event as [self2 swarm2 w em|tr|] eqn:S; simpl; auto.
    pose proof (switch_event_counted _ _ _ _ _ _ _ _ _ Hplain Hs S) as Hc.
    apply switch_event_frame in S. destruct S as [Ht _].
    apply all_counted_store; auto.
    intros key' swarm'. rewrite Ht. apply Ha1.
  - apply _getSwarm_PrototypeMember in G. now subst.
Qed.

Lemma final_handle_all_counted msgs : forall self,
  Forall (fun m => plain_peer_id (snd m)) msgs ->
  all_counted self ->
  all_counted (final (handle_all self msgs)).
Proof.
  induction msgs as [|[socket data] msgs IH]; intros self Hp Ha; simpl; auto.
  inversion Hp as [|? ? H1 H2]; subst; simpl in H1.
  pose proof (_onSocketMessage_counted self socket data H1 Ha) as H.
  destruct (_onSocketMessage self socket data) as [self1 tr|self1 tr];
    simpl in *; auto.
  specialize (IH self1 H2 H).
  now destruct (handle_all self1 msgs).
Qed.

(** C1. The claim: after any sequence of valid announces, every swarm has
    [complete + incomplete] equal to the number of entries of [peers] that
    are not [null]. The code at a valid announce that breaks it: on a fresh
    server, [stopped] from the peer id [propertyIsEnumerable]. Line 114 reads
    [swarm.peers[peerId]] through the prototype chain and finds the method
    of that name, so the peer counts as being in the swarm: [incomplete]
    goes to -1 while [peers] holds no peer. *)
Theorem stopped_from_inherited_name_breaks_count :
  all_counted (new_Server None) /\
  ~ plain_peer_id
      (JSONValue (announce hash_a propertyIsEnumerable "stopped" false None)) /\
  exists self',
    _onSocketMessage (new_Server None) 1%nat
      (JSONValue (announce hash_a propertyIsEnumerable "stopped" false None))
    = Returned self'
        [Emit "stop" None; Send 1%nat (Response 0 (-1) (600 # 1) None)] /\
    swarm_at self' hash_a = Swarm.mk 0 (-1) [(propertyIsEnumerable, None)] /\
    population (swarm_at self' hash_a) = (-1)%Z /\
    present (swarm_at self' hash_a) = [] /\
    ~ counted (swarm_at self' hash_a).
Proof.
  split; [intros key swarm; discriminate|].
  split; [intros H; vm_compute in H; discriminate|].
  eexists. split; [vm_compute; reflexivity|].
  repeat split; try reflexivity.
  vm_compute. discriminate.
Qed.

(** C2. The claim: both counters are non-negative after every message. The
    code at two valid announces that break it: a peer that starts with
    [left] 0 is added to [complete] (line 129) but its entry is created
    without [complete] (line 134), so its [stopped] takes one from
    [incomplete] (line 150), which goes to -1. *)
Theorem seed_started_then_stopped_incomplete_negative :
  exists self' trace,
    handle_all (new_Server None)
      [ (1%nat, JSONValue (announce hash_a peer_1 "started" true None));
        (1%nat, JSONValue (announce hash_a peer_1 "stopped" true None)) ]
    = Returned self' trace /\
    Swarm.complete (swarm_at self' hash_a) = 1%Z /\
    Swarm.incomplete (swarm_at self' hash_a) = (-1)%Z /\
    Swarm.peers (swarm_at self' hash_a) = [(peer_1, None)].
Proof.
  do 2 eexists. split; [vm_compute; reflexivity|].
  repeat split; reflexivity.
Qed.

(** ** The cases of the [switch] *)

Lemma switch_started self socket data swarm peerId peer :
  event data = EventString (js "started") ->
  switch_event self socket data swarm peerId peer
  = case_started self socket data swarm peerId peer.
Proof. unfold switch_event. now intros ->. Qed.

Lemma switch_stopped self socket data swarm peerId peer :
  event data = EventString (js "stopped") ->
  switch_event self socket data swarm peerId peer
  = case_stopped self swarm peerId peer.
Proof. unfold switch_event. now intros ->. Qed.


Lemma switch_answered self socket data swarm peerId peer :
  event data = EventString (js "answered") ->
  switch_event self socket data swarm peerId peer
  = case_answered self socket data swarm peer.
Proof. unfold switch_event. now intros ->. Qed.

(** ** Single announces *)

Section Announce.
Variables (self : Server) (socket : WebSocket) (data : Message).
Variables (infoHash peerId : jsstring).
Hypothesis Haddr : addressed data infoHash peerId.
Hypothesis Hkey : resolves self infoHash.
Variable length : number.
Hypothesis Hlen : offers_length data = Converts length.

Let swarm := swarm_at self infoHash.
Let peer := get (Swarm.peers swarm) peerId.

Lemma started_accepted zero :
  event data = EventString (js "started") ->
  absent peer = true ->
  left_is_zero data = Converts zero ->
  _onSocketMessage self socket (JSONValue data)
  = let swarm' := after_started swarm socket peerId zero in
    Returned (store self infoHash swarm')
      (Emit "start" None :: reply self socket data peerId swarm' None length).
Proof.
  intros Hev Habs Hleft.
  rewrite (_onSocketMessage_addressed _ _ _ _ _ _ Haddr Hkey Hlen). cbv zeta.
  rewrite (switch_started _ _ _ _ _ _ Hev).
  unfold case_started. fold swarm peer. rewrite Habs, Hleft. simpl.
  now rewrite store_store.
Qed.

(** [Number] cannot convert [data.left]: line 128 throws, before anything
    is counted or stored. *)
Lemma started_unconvertible :
  event data = EventString (js "started") ->
  absent peer = true ->
  left_is_zero data = NumberThrows ->
  _onSocketMessage self socket (JSONValue data)
  = Thrown (store self infoHash swarm) [].
Proof.
  intros Hev Habs Hleft.
  rewrite (_onSocketMessage_addressed _ _ _ _ _ _ Haddr Hkey Hlen). cbv zeta.
  rewrite (switch_started _ _ _ _ _ _ Hev).
  unfold case_started. fold swarm peer. now rewrite Habs, Hleft.
Qed.

Lemma started_duplicate :
  event data = EventString (js "started") ->
  absent peer = false ->
  _onSocketMessage self socket (JSONValue data)
  = Returned (store self infoHash swarm)
      (reply self socket data peerId swarm
         (Some "unexpected `started` event from peer that is already in swarm")
         length).
Proof.
  intros Hev Habs.
  rewrite (_onSocketMessage_addressed _ _ _ _ _ _ Haddr Hkey Hlen). cbv zeta.
  rewrite (switch_started _ _ _ _ _ _ Hev).
  unfold case_started. fold swarm peer. rewrite Habs. simpl.
  now rewrite store_store.
Qed.

Lemma stopped_present :
  event data = EventString (js "stopped") ->
  absent peer = false ->
  _onSocketMessage self socket (JSONValue data)
  = let swarm' := after_stopped swarm peerId (is_complete self peer) in
    Returned (store self infoHash swarm')
      (Emit "stop" None :: reply self socket data peerId swarm' None length).
Proof.
  intros Hev Habs.
  rewrite (_onSocketMessage_addressed _ _ _ _ _ _ Haddr Hkey Hlen). cbv zeta.
  rewrite (switch_stopped _ _ _ _ _ _ Hev).
  unfold case_stopped. fold swarm peer. rewrite Habs. simpl.
  rewrite store_store.
  replace (is_complete (store self infoHash swarm) peer)
    with (is_complete self peer) by reflexivity.
  reflexivity.
Qed.


Lemma answered_relayed toPeerId toPeer :
  event data = EventString (js "answered") ->
  absent peer = false ->
  to_peer_id data = Some toPeerId -> toPeerId <> [] ->
  get (Swarm.peers swarm) toPeerId = Own (Some toPeer) ->
  _onSocketMessage self socket (JSONValue data)
  = Returned (store self infoHash swarm)
      [Send (Peer.socket toPeer) (Answer (answer data)); Emit "answer" None].
Proof.
  intros Hev Habs Hto Hne Hget.
  rewrite (_onSocketMessage_addressed _ _ _ _ _ _ Haddr Hkey Hlen). cbv zeta.
  rewrite (switch_answered _ _ _ _ _ _ Hev).
  unfold case_answered. fold swarm peer. rewrite Habs, Hto.
  destruct toPeerId; [congruence|]. now rewrite Hget.
Qed.

Lemma answered_invalid :
  event data = EventString (js "answered") ->
  absent peer = false ->
  to_peer_id data = None \/ to_peer_id data = Some [] ->
  _onSocketMessage self socket (JSONValue data)
  = Returned (store self infoHash swarm) (error socket "invalid `to_peer_id`").
Proof.
  intros Hev Habs Hto.
  rewrite (_onSocketMessage_addressed _ _ _ _ _ _ Haddr Hkey Hlen). cbv zeta.
  rewrite (switch_answered _ _ _ _ _ _ Hev).
  unfold case_answered. fold swarm peer. rewrite Habs.
  now destruct Hto as [-> | ->].
Qed.

Lemma answered_unknown toPeerId :
  event data = EventString (js "answered") ->
  absent peer = false ->
  to_peer_id data = Some toPeerId -> toPeerId <> [] ->
  absent (get (Swarm.peers swarm) toPeerId) = true ->
  _onSocketMessage self socket (JSONValue data)
  = Returned (store self infoHash swarm)
      [Emit "warning" (Some "no peer with that `to_peer_id`")].
Proof.
  intros Hev Habs Hto Hne Hget.
  rewrite (_onSocketMessage_addressed _ _ _ _ _ _ Haddr Hkey Hlen). cbv zeta.
  rewrite (switch_answered _ _ _ _ _ _ Hev).
  unfold case_answered. fold swarm peer. rewrite Habs, Hto.
  destruct toPeerId; [congruence|].
  now destruct (get (Swarm.peers swarm) (n :: toPeerId)) as [[?|]| |].
Qed.

Lemma answered_inherited toPeerId :
  event data = EventString (js "answered") ->
  absent peer = false ->
  to_peer_id data = Some toPeerId ->
  get (Swarm.peers swarm) toPeerId = Inherited toPeerId ->
  _onSocketMessage self socket (JSONValue data)
  = Thrown (store self infoHash swarm) [].
Proof.
  intros Hev Habs Hto Hget.
  rewrite (_onSocketMessage_addressed _ _ _ _ _ _ Haddr Hkey Hlen). cbv zeta.
  rewrite (switch_answered _ _ _ _ _ _ Hev).
  unfold case_answered. fold swarm peer. rewrite Habs, Hto.
  destruct toPeerId as [|c rest]; [|now rewrite Hget].
  exfalso. unfold get in Hget.
  destruct (own (Swarm.peers swarm) []); [discriminate|].
  change (inherited []) with false in Hget. discriminate.
Qed.
End Announce.

(** A peer found in [peers] means the swarm is one of [torrents]
    already. *)
Lemma swarm_of_own_peer self infoHash peerId p :
  get (Swarm.peers (swarm_at self infoHash)) peerId = Own p ->
  own (torrents self) infoHash = Some (swarm_at self infoHash).
Proof.
  unfold swarm_at.
  destruct (own (torrents self) infoHash) as [s|] eqn:E; [reflexivity|].
  unfold get; simpl. now destruct (inherited peerId).
Qed.

(** C3, as the code has it. For a peer id that is not in the swarm (never
    seen, or stopped), and whatever number [left] is: [started] then
    [stopped] are both answered and leave [complete + incomplete] as it was,
    and a [started] that follows is accepted: no warning in its response, a
    fresh entry holding the connection it came on. The info hash is one that
    [torrents] resolves: not the name of a member of [Object.prototype]
    (unless a swarm is stored under it); and the messages are ones the
    handler gets through: [Number] converts the [left] of each [started] and
    the length of the [offers] of all three. *)
Theorem started_stopped_restores_sum_and_restart_is_accepted
    self s1 s2 s3 m1 m2 m3 infoHash peerId :
  addressed m1 infoHash peerId -> event m1 = EventString (js "started") ->
  addressed m2 infoHash peerId -> event m2 = EventString (js "stopped") ->
  addressed m3 infoHash peerId -> event m3 = EventString (js "started") ->
  resolves self infoHash ->
  absent (get (Swarm.peers (swarm_at self infoHash)) peerId) = true ->
  left_converts m1 -> offers_convert m1 ->
  offers_convert m2 ->
  left_converts m3 -> offers_convert m3 ->
  exists self1 t1 self2 t2 self3 pushes,
    _onSocketMessage self s1 (JSONValue m1) = Returned self1 t1 /\
    _onSocketMessage self1 s2 (JSONValue m2) = Returned self2 t2 /\
    population (swarm_at self2 infoHash) = population (swarm_at self infoHash) /\
    _onSocketMessage self2 s3 (JSONValue m3)
    = Returned self3
        (Emit "start" None
         :: Send s3 (Response (Swarm.complete (swarm_at self3 infoHash))
                       (Swarm.incomplete (swarm_at self3 infoHash))
                       (_intervalMs self) None)
         :: pushes) /\
    get (Swarm.peers (swarm_at self3 infoHash)) peerId
    = Own (Some (Peer.mk s3 peerId false)).
Proof.
  intros A1 E1 A2 E2 A3 E3 Hk Habs [z1 Z1] [n1 N1] [n2 N2] [z3 Z3] [n3 N3].
  set (swarm := swarm_at self infoHash) in *.
  set (swarm1 := after_started swarm s1 peerId z1).
  set (swarm2 := after_stopped swarm1 peerId false).
  set (swarm3 := after_started swarm2 s3 peerId z3).
  assert (P1 : get (Swarm.peers swarm1) peerId
               = Own (Some (Peer.mk s1 peerId false)))
    by (unfold swarm1, after_started, set_peer; simpl; apply get_put_same).
  assert (P2 : get (Swarm.peers swarm2) peerId = Own None)
    by (unfold swarm2, after_stopped, set_peer; simpl; apply get_put_same).
  assert (P3 : get (Swarm.peers swarm3) peerId
               = Own (Some (Peer.mk s3 peerId false)))
    by (unfold swarm3, after_started, set_peer; simpl; apply get_put_same).
  pose proof (started_accepted self s1 m1 _ _ A1 Hk _ N1 z1 E1 Habs Z1) as R1.
  cbv zeta in R1. fold swarm swarm1 in R1.
  pose proof (stopped_present (store self infoHash swarm1) s2 m2 _ _ A2
                (resolves_store _ _ _) _ N2 E2) as R2.
  cbv zeta in R2.
  rewrite swarm_at_store, P1, store_store in R2. specialize (R2 eq_refl).
  simpl is_complete in R2. fold swarm2 in R2.
  pose proof (started_accepted (store self infoHash swarm2) s3 m3 _ _ A3
                (resolves_store _ _ _) _ N3 z3 E3) as R3.
  cbv zeta in R3.
  rewrite swarm_at_store, P2, store_store in R3. specialize (R3 eq_refl Z3).
  fold swarm3 in R3.
  do 6 eexists.
  split; [exact R1|]. split; [exact R2|].
  rewrite !swarm_at_store.
  split.
  { unfold swarm2, swarm1, after_stopped, after_started, population.
    destruct z1; simpl; lia. }
  split; [|exact P3].
  rewrite R3. reflexivity.
Qed.

Lemma started_stopped_restart_witness :
  exists self1 t1 self2 t2 self3 pushes,
    _onSocketMessage (new_Server None) 1%nat
      (JSONValue (announce hash_a peer_1 "started" true None))
    = Returned self1 t1 /\
    _onSocketMessage self1 1%nat
      (JSONValue (announce hash_a peer_1 "stopped" false None))
    = Returned self2 t2 /\
    population (swarm_at self2 hash_a)
    = population (swarm_at (new_Server None) hash_a) /\
    _onSocketMessage self2 2%nat
      (JSONValue (announce hash_a peer_1 "started" false None))
    = Returned self3
        (Emit "start" None
         :: Send 2%nat (Response (Swarm.complete (swarm_at self3 hash_a))
                          (Swarm.incomplete (swarm_at self3 hash_a))
                          (_intervalMs (new_Server None)) None)
         :: pushes) /\
    get (Swarm.peers (swarm_at self3 hash_a)) peer_1
    = Own (Some (Peer.mk 2%nat peer_1 false)).
Proof.
  apply (started_stopped_restores_sum_and_restart_is_accepted
           (new_Server None) 1%nat 1%nat 2%nat
           (announce hash_a peer_1 "started" true None)
           (announce hash_a peer_1 "stopped" false None)
           (announce hash_a peer_1 "started" false None)
           hash_a peer_1);
    try (repeat split; reflexivity); try (eexists; reflexivity).
  now apply resolves_plain.
Defined.

(** C3, as the claim has it, fails for a peer that is in the swarm: its
    [started] is skipped as a duplicate, its [stopped] takes it out, and
    the sum goes from 1 to 0. *)
Lemma started_stopped_of_present_peer_lowers_sum :
  returned restart_then_stop = true /\
  population (swarm_at one_leecher hash_a) = 1%Z /\
  population (swarm_at (final restart_then_stop) hash_a) = 0%Z.
Proof. repeat split; reflexivity. Qed.

(** ** Peer selection and introductions *)

(** The test [peers.length >= numWant] of line 237. *)
Lemma ge_number_wanted n numWant :
  ge_number n numWant
  = match wanted numWant with
    | Some k => (k <=? n)%nat
    | None => false
    end.
Proof.
  destruct numWant as [|q| |]; simpl; auto.
  destruct (Qle_bool q (inject_Z (Z.of_nat n))) eqn:E; symmetry.
  - apply Nat.leb_le. apply Qle_bool_iff in E.
    apply Qceiling_resp_le in E. rewrite Qceiling_Z in E. lia.
  - apply Nat.leb_gt.
    assert (H : Qlt (inject_Z (Z.of_nat n)) q).
    { apply Qnot_le_lt. intros H. apply Qle_bool_iff in H. congruence. }
    pose proof (Qlt_le_trans _ _ _ H (Qle_ceiling q)) as H'.
    rewrite <- Zlt_Qlt in H'. lia.
Qed.

Lemma _getPeers_loop_take props : forall numWant peers,
  _getPeers_loop props numWant peers
  = peers
    ++ take (option_map (fun k => (k - List.length peers)%nat) (wanted numWant))
         (present_peers props).
Proof.
  induction props as [|[key [p|]] props IH]; intros numWant peers; simpl;
    rewrite ?ge_number_wanted.
  - destruct (wanted numWant); simpl; now rewrite ?firstn_nil, app_nil_r.
  - destruct (wanted numWant) as [k|] eqn:W; simpl.
    + destruct (k <=? List.length peers)%nat eqn:E.
      * apply Nat.leb_le in E.
        replace (k - List.length peers)%nat with 0%nat by lia.
        now rewrite app_nil_r.
      * apply Nat.leb_gt in E. rewrite IH, W, length_app; simpl.
        destruct (k - List.length peers)%nat as [|n] eqn:D; [lia|].
        replace (k - (List.length peers + 1))%nat with n by lia.
        simpl. now rewrite <- app_assoc.
    + rewrite IH, W. simpl. now rewrite <- app_assoc.
  - destruct (wanted numWant) as [k|] eqn:W; simpl.
    + destruct (k <=? List.length peers)%nat eqn:E.
      * apply Nat.leb_le in E.
        replace (k - List.length peers)%nat with 0%nat by lia.
        now rewrite app_nil_r.
      * rewrite IH, W. reflexivity.
    + rewrite IH, W. reflexivity.
Qed.

(** [_getPeers] returns the first entries that are not [null], as many as
    it takes to reach [numWant]. *)
Lemma _getPeers_take swarm numWant :
  _getPeers swarm numWant = take (wanted numWant) (present swarm).
Proof.
  unfold _getPeers, present. rewrite _getPeers_loop_take; simpl.
  destruct (wanted numWant); simpl; now rewrite ?Nat.sub_0_r.
Qed.

(** What line 117 makes of any length is at most 20, and never [NaN]. *)
Lemma wanted_numWant data length :
  offers_length data = Converts length ->
  exists k, wanted (Math_min length MAX_ANNOUNCE_PEERS) = Some k /\
            (k <= 20)%nat.
Proof.
  assert (H : forall x, x <> NaN ->
            exists k, wanted (Math_min x MAX_ANNOUNCE_PEERS) = Some k /\
                      (k <= 20)%nat).
  { intros [|q| |] Hx; [congruence| | |]; simpl.
    - destruct (Qle_bool q (20 # 1)) eqn:E; simpl.
      + eexists; split; [reflexivity|]. apply Qle_bool_iff in E.
        apply Qceiling_resp_le in E.
        change (20 # 1) with (inject_Z 20) in E. rewrite Qceiling_Z in E. lia.
      + exists 20%nat. split; [reflexivity|lia].
    - exists 20%nat. split; [reflexivity|lia].
    - exists 0%nat. split; [reflexivity|lia]. }
  unfold offers_length.
  destruct (offers data) as [|[x|] elements]; intros [= <-].
  - apply H. discriminate.
  - apply H. destruct x as [|q| |]; simpl; try discriminate.
    now destruct (Qeq_bool q (0 # 1)).
Qed.

(** For an array, it is the number of its elements, or 20. *)
Lemma or_zero_of_nat n :
  wanted (Math_min (or_zero (Num (inject_Z (Z.of_nat n)))) MAX_ANNOUNCE_PEERS)
  = Some (Nat.min n 20).
Proof.
  assert (H : wanted (Math_min (Num (inject_Z (Z.of_nat n))) MAX_ANNOUNCE_PEERS)
              = Some (Nat.min n 20)).
  { simpl. destruct (Qle_bool (inject_Z (Z.of_nat n)) (20 # 1)) eqn:E; simpl.
    - rewrite Qceiling_Z, Nat2Z.id. f_equal.
      apply Qle_bool_iff in E. change (20 # 1) with (inject_Z 20) in E.
      rewrite <- Zle_Qle in E. lia.
    - f_equal.
      assert (H : Qlt (20 # 1) (inject_Z (Z.of_nat n))).
      { apply Qnot_le_lt. intros H. apply Qle_bool_iff in H. congruence. }
      change (20 # 1) with (inject_Z 20) in H. rewrite <- Zlt_Qlt in H.
      change (Z.to_nat (Qceiling (inject_Z 20))) with 20%nat. lia. }
  destruct n as [|n]; [reflexivity|].
  replace (or_zero (Num (inject_Z (Z.of_nat (S n)))))
    with (Num (inject_Z (Z.of_nat (S n)))); [exact H|].
  simpl or_zero.
  destruct (Qeq_bool (inject_Z (Z.of_nat (S n))) (0 # 1)) eqn:E; [|reflexivity].
  apply Qeq_bool_iff in E. unfold Qeq in E. simpl in E. lia.
Qed.

Lemma wanted_supplies data l :
  supplies data l ->
  exists length,
    offers_length data = Converts length /\
    wanted (Math_min length MAX_ANNOUNCE_PEERS)
    = Some (Nat.min (List.length l) 20).
Proof.
  unfold offers_length, supplies, offers_array.
  intros [-> | [-> ->]]; eexists; (split; [reflexivity|]).
  - apply or_zero_of_nat.
  - reflexivity.
Qed.

Lemma offers_at_supplies data l n :
  supplies data l ->
  offers_at data n = nth_error l n.
Proof.
  unfold offers_at, supplies, offers_array.
  intros [-> | [-> ->]].
  - rewrite nth_error_map. now destruct (nth_error l n).
  - now destruct n.
Qed.

Lemma length_forEach_send peers : forall i data peerId,
  List.length (forEach_send peers i data peerId) = List.length peers.
Proof. induction peers; intros; simpl; auto. Qed.

Lemma nth_forEach_send peers : forall i data peerId j peer,
  nth_error peers j = Some peer ->
  nth_error (forEach_send peers i data peerId) j
  = Some (Send (Peer.socket peer)
            (Introduction (offers_at data (i + j)) peerId)).
Proof.
  induction peers as [|p peers IH]; intros i data peerId [|j] peer; simpl;
    try discriminate.
  - intros [= ->]. now rewrite Nat.add_0_r.
  - intros H. rewrite (IH (S i) data peerId j peer H).
    now rewrite Nat.add_succ_r.
Qed.

Lemma forEach_send_introductions peers : forall i data peerId,
  forallb is_introduction (forEach_send peers i data peerId) = true.
Proof. induction peers; intros; simpl; auto. Qed.

(** ** The handler, case by case *)

Lemma _onSocketMessage_inv self socket data :
  (exists message,
      _onSocketMessage self socket (JSONValue data)
      = Returned self (error socket message)) \/
  (exists infoHash peerId,
      addressed data infoHash peerId /\
      _onSocketMessage self socket (JSONValue data)
      = match _getSwarm self infoHash with
        | (self1, PrototypeMember _) => Thrown self1 []
        | (self1, SwarmAt key swarm) =>
            match offers_length data with
            | NumberThrows => Thrown self1 []
            | Converts length =>
                respond socket data key peerId self1 length
                  (switch_event self1 socket data swarm peerId
                     (get (Swarm.peers swarm) peerId))
            end
        end).
Proof.
  unfold _onSocketMessage.
  destruct (info_hash data) as [[|c infoHash]|] eqn:Hi; simpl; eauto.
  destruct (List.length infoHash =? 19)%nat eqn:Li; simpl; eauto.
  destruct (option_map binaryToUtf8 (peer_id data)) as [[|d peerId]|] eqn:Hp;
    simpl; eauto.
  destruct (List.length peerId =? 19)%nat eqn:Lp; simpl; eauto.
  apply Nat.eqb_eq in Li, Lp.
  right. exists (c :: infoHash), (d :: peerId).
  split; [repeat split; simpl; auto|].
  destruct (_getSwarm self (c :: infoHash)) as [self1 [k swarm|name]];
    [|reflexivity].
  now destruct (offers_length data).
Qed.

(** The effects emitted inside the [switch] before a [break] are events
    only. *)
Lemma switch_event_emitted self socket data swarm peerId peer self' swarm' w em :
  switch_event self socket data swarm peerId peer = Break self' swarm' w em ->
  forallb is_emit em = true.
Proof.
  unfold switch_event, case_started, case_stopped, case_completed,
    case_update, case_answered.
  intros H.
  repeat match type of H with
         | context [match ?x with _ => _ end] => destruct x
         end; inversion H; subst; reflexivity.
Qed.

(** A [return] inside the [switch] sends no response. *)
Lemma switch_event_Return self socket data swarm peerId peer trace :
  switch_event self socket data swarm peerId peer = Return trace ->
  existsb is_response trace = false.
Proof.
  unfold switch_event, case_started, case_stopped, case_completed,
    case_update, case_answered.
  intros H.
  repeat match type of H with
         | context [match ?x with _ => _ end] => destruct x
         end; inversion H; subst; reflexivity.
Qed.

Lemma existsb_is_response_error socket message :
  existsb is_response (error socket message) = false.
Proof. reflexivity. Qed.

(** A call that returns with a response in its trace got past the
    [switch]. *)
Lemma _onSocketMessage_response self socket data self' trace :
  _onSocketMessage self socket (JSONValue data) = Returned self' trace ->
  existsb is_response trace = true ->
  exists infoHash peerId self2 swarm' w em length,
    addressed data infoHash peerId /\
    offers_length data = Converts length /\
    forallb is_emit em = true /\
    self' = store self2 infoHash swarm' /\
    trace = em ++ reply self2 socket data peerId swarm' w length.
Proof.
  intros Hret Hresp.
  destruct (_onSocketMessage_inv self socket data)
    as [[message E]|(infoHash & peerId & Haddr & E)]; rewrite E in Hret.
  { injection Hret as <- <-. now rewrite existsb_is_response_error in Hresp. }
  destruct (_getSwarm self infoHash) as [self1 [key swarm|name]] eqn:G;
    [|discriminate].
  apply _getSwarm_SwarmAt in G. destruct G as (-> & _ & _).
  destruct (offers_length data) as [length|] eqn:L; [|discriminate].
  destruct (switch_event self1 socket data swarm peerId
              (get (Swarm.peers swarm) peerId))
    as [self2 swarm' w em|tr|] eqn:S; simpl in Hret; [| |discriminate].
  2:{ injection Hret as <- <-.
      now rewrite (switch_event_Return _ _ _ _ _ _ _ S) in Hresp. }
  injection Hret as <- <-.
  exists infoHash, peerId, self2, swarm', w, em, length.
  split; [exact Haddr|]. split; [reflexivity|].
  split; [exact (switch_event_emitted _ _ _ _ _ _ _ _ _ _ S)|].
  split; reflexivity.
Qed.

(** C4, as the code has it, for a message whose [offers] is an array (or a
    string), or is missing. Whenever the handler gets past the [switch] (it
    returns and its trace holds the response to the announcer), the trace
    is: the events emitted, the response on the announcer's connection, then
    the pushes. There are exactly min(min(number of offers, 20), number of
    entries that are not [null]) pushes, none when no offers came; the
    [n]-th goes on the connection of the [n]-th such entry of the swarm and
    holds the [n]-th offer and the announcer's peer id. The swarm is the one
    after the announce took effect. *)
Theorem introductions_follow_offers self socket data self' trace l :
  _onSocketMessage self socket (JSONValue data) = Returned self' trace ->
  existsb is_response trace = true ->
  supplies data l ->
  exists infoHash peerId emitted c i q w pushes,
    addressed data infoHash peerId /\
    trace = emitted ++ Send socket (Response c i q w) :: pushes /\
    forallb is_emit emitted = true /\
    List.length pushes
    = Nat.min (Nat.min (List.length l) 20)
        (List.length (present (swarm_at self' infoHash))) /\
    (l = [] -> pushes = []) /\
    forall n, (n < List.length pushes)%nat ->
      exists peer offer,
        nth_error (present (swarm_at self' infoHash)) n = Some peer /\
        nth_error l n = Some offer /\
        nth_error pushes n
        = Some (Send (Peer.socket peer) (Introduction (Some offer) peerId)).
Proof.
  intros Hret Hresp Hl.
  destruct (_onSocketMessage_response _ _ _ _ _ Hret Hresp)
    as (infoHash & peerId & self2 & swarm' & w & em & length
        & Haddr & L & Hem & -> & ->).
  destruct (wanted_supplies _ _ Hl) as (length' & L' & W).
  rewrite L in L'. injection L' as <-.
  set (numWant := Nat.min (List.length l) 20) in *.
  unfold reply. rewrite _getPeers_take, W. simpl take.
  exists infoHash, peerId, em, (Swarm.complete swarm'),
    (Swarm.incomplete swarm'), (_intervalMs self2), w,
    (forEach_send (firstn numWant (present swarm')) 0 data peerId).
  rewrite swarm_at_store.
  split; [exact Haddr|]. split; [reflexivity|]. split; [exact Hem|].
  rewrite length_forEach_send, length_firstn.
  split; [reflexivity|]. split.
  { intros ->. reflexivity. }
  intros n Hn.
  assert (Hlt : (n < numWant)%nat) by lia.
  destruct (nth_error (present swarm') n) as [peer|] eqn:Hpeer.
  2:{ apply nth_error_None in Hpeer. lia. }
  destruct (nth_error l n) as [offer|] eqn:Hoff.
  2:{ apply nth_error_None in Hoff. unfold numWant in Hlt. lia. }
  exists peer, offer. split; [reflexivity|]. split; [reflexivity|].
  rewrite (nth_forEach_send _ 0 data peerId n peer).
  - simpl. now rewrite (offers_at_supplies _ _ _ Hl), Hoff.
  - rewrite nth_error_firstn.
    apply Nat.ltb_lt in Hlt. now rewrite Hlt.
Qed.

Lemma introductions_follow_offers_witness :
  supplies (announce hash_a peer_2 "started" false (Some [js "o1"]))
    [js "o1"] /\
  exists infoHash peerId emitted c i q w pushes,
    addressed (announce hash_a peer_2 "started" false (Some [js "o1"]))
      infoHash peerId /\
    trace_of second_peer_starts
    = emitted ++ Send 2%nat (Response c i q w) :: pushes /\
    forallb is_emit emitted = true /\
    List.length pushes
    = Nat.min (Nat.min (List.length [js "o1"]) 20)
        (List.length (present (swarm_at (final second_peer_starts) infoHash))) /\
    ([js "o1"] = [] -> pushes = []) /\
    forall n, (n < List.length pushes)%nat ->
      exists peer offer,
        nth_error (present (swarm_at (final second_peer_starts) infoHash)) n
        = Some peer /\
        nth_error [js "o1"] n = Some offer /\
        nth_error pushes n
        = Some (Send (Peer.socket peer) (Introduction (Some offer) peerId)).
Proof.
  split; [left; reflexivity|].
  apply (introductions_follow_offers one_leecher 2%nat
           (announce hash_a peer_2 "started" false (Some [js "o1"]))
           (final second_peer_starts) (trace_of second_peer_starts)
           [js "o1"]);
    [reflexivity|reflexivity|left; reflexivity].
Defined.

(** C4, as the claim has it, fails for a message whose [offers] is not an
    array: nothing requires one, and line 117 takes the [length] of any
    value. [peer_2] starts in the swarm of [peer_1] with
    [offers: {"length": 2}]: the message holds no offer at any index, yet
    both peers of the swarm are pushed an introduction, with [offer]
    undefined. And [peer_3] starts in the swarm of [peer_1] and [peer_2]
    with [offers: {"length": 2.5}]: three introductions are pushed, more
    than the length, which is no number of offers at all. *)
Lemma length_without_offers_is_introduced :
  (forall n, offers_at length_without_offers n = None) /\
  trace_of (_onSocketMessage one_leecher 2%nat
              (JSONValue length_without_offers))
  = [ Emit "start" None;
      Send 2%nat (Response 0 2 (600 # 1) None);
      Send 1%nat (Introduction None peer_2);
      Send 2%nat (Introduction None peer_2) ] /\
  returned (_onSocketMessage one_leecher 2%nat
              (JSONValue length_without_offers)) = true /\
  (forall n, offers_at fractional_length n = None) /\
  offers_length fractional_length = Converts (Num (5 # 2)) /\
  trace_of (_onSocketMessage two_leechers 3%nat (JSONValue fractional_length))
  = [ Emit "start" None;
      Send 3%nat (Response 0 3 (600 # 1) None);
      Send 1%nat (Introduction None peer_3);
      Send 2%nat (Introduction None peer_3);
      Send 3%nat (Introduction None peer_3) ] /\
  returned (_onSocketMessage two_leechers 3%nat (JSONValue fractional_length))
  = true /\
  Qlt (5 # 2)
    (inject_Z
       (Z.of_nat
          (List.length
             (filter is_introduction
                (trace_of (_onSocketMessage two_leechers 3%nat
                             (JSONValue fractional_length))))))).
Proof.
  split; [intros [|n]; reflexivity|].
  split; [reflexivity|]. split; [reflexivity|].
  split; [intros [|n]; reflexivity|].
  repeat split; reflexivity.
Qed.

(** ** Messages that are turned down *)

(** C5. The claim: every message that fails validation gets one error
    response and a warning, and the server goes on. The code at the text
    [null], which [JSON.parse] accepts: [data.info_hash] (line 105) throws a
    [TypeError] before any check; nothing is sent, no warning is emitted,
    and the exception leaves the handler. *)
Theorem null_message_throws self socket :
  _onSocketMessage self socket JSONNull = Thrown self [] /\
  returned (_onSocketMessage self socket JSONNull) = false /\
  trace_of (_onSocketMessage self socket JSONNull) = [].
Proof. repeat split. Qed.

(** What the code does for the other messages it turns down before it
    looks for a swarm: one error response to the sender, one warning, and the
    server is left as it was. *)
Lemma turned_down_before_lookup self socket data :
  (data = NotJSON \/
   exists m, data = JSONValue m /\
     forall infoHash peerId, ~ addressed m infoHash peerId) ->
  exists message,
    _onSocketMessage self socket data
    = Returned self [ Send socket (FailureReason message);
                      Emit "warning" (Some message) ].
Proof.
  intros [->|(m & -> & Hno)]; [now exists "invalid socket message"|].
  destruct (_onSocketMessage_inv self socket m)
    as [[message E]|(infoHash & peerId & Haddr & _)]; [eauto|].
  now destruct (Hno infoHash peerId).
Qed.

(** An event that is no [case] label: the swarm has been looked up, and
    created if it was not there, and the length of [offers] converted,
    before the [switch] turns the message down; every key still stands for
    the same swarm. *)
Lemma unrecognised_event_turned_down self socket data infoHash peerId length :
  addressed data infoHash peerId ->
  resolves self infoHash ->
  offers_length data = Converts length ->
  recognised (event data) = false ->
  _onSocketMessage self socket (JSONValue data)
  = Returned (store self infoHash (swarm_at self infoHash))
      [ Send socket (FailureReason "invalid event");
        Emit "warning" (Some "invalid event") ] /\
  forall key,
    swarm_at (store self infoHash (swarm_at self infoHash)) key
    = swarm_at self key.
Proof.
  intros Haddr Hkey Hlen Hev. split.
  - rewrite (_onSocketMessage_addressed _ _ _ _ _ _ Haddr Hkey Hlen). cbv zeta.
    unfold switch_event. unfold recognised in Hev.
    destruct (event data) as [|s|]; [discriminate| |reflexivity].
    repeat (apply orb_false_iff in Hev; destruct Hev as [Hev ?]).
    now repeat match goal with H : eqs _ _ = false |- _ => rewrite H; clear H end.
  - intros key. destruct (eqs infoHash key) eqn:E.
    + apply eqs_true_iff in E; subst. apply swarm_at_store.
    + apply eqs_false_iff in E. now apply swarm_at_store_other.
Qed.

(** C6. The claim: an [answered] whose target is not in the swarm gets a
    warning and nothing is sent. The code at a target named like a member of
    [Object.prototype]: [swarm.peers['toString']] (line 192) is the inherited
    method, which passes the check of line 193; [toPeer.socket] is
    [undefined] and line 196 throws a [TypeError]: no warning, and the
    exception leaves the handler. *)
Theorem answered_to_inherited_name_throws :
  get (Swarm.peers (swarm_at one_leecher hash_a)) peer_1
  = Own (Some (Peer.mk 1%nat peer_1 false)) /\
  own (Swarm.peers (swarm_at one_leecher hash_a)) (js "toString") = None /\
  _onSocketMessage one_leecher 1%nat
    (JSONValue (answered hash_a peer_1 (js "toString") (js "a1")))
  = Thrown one_leecher [].
Proof. repeat split. Qed.



(** C10. A [started] for a peer id that has an entry leaves the server as
    it was, so the entry and the connection it holds stay: the connection the
    duplicate came on is stored nowhere, the response carries the warning, and
    an [answered] addressed to that peer id afterwards is relayed on the
    connection stored first. The equations give the whole outcome of both
    calls; either can also end in the TypeError of line 117, when [Number]
    cannot convert the length of [offers], and then sends nothing and
    leaves the server as it was. *)
Theorem duplicate_started_keeps_stored_connection
    self socket data infoHash peerId p :
  addressed data infoHash peerId ->
  event data = EventString (js "started") ->
  get (Swarm.peers (swarm_at self infoHash)) peerId = Own (Some p) ->
  exists self',
    _onSocketMessage self socket (JSONValue data)
    = match offers_length data with
      | Converts length =>
          Returned self'
            (Send socket
               (Response (Swarm.complete (swarm_at self infoHash))
                  (Swarm.incomplete (swarm_at self infoHash)) (_intervalMs self)
                  (Some "unexpected `started` event from peer that is already in swarm"))
             :: forEach_send
                  (_getPeers (swarm_at self infoHash)
                     (Math_min length MAX_ANNOUNCE_PEERS))
                  0 data peerId)
      | NumberThrows => Thrown self' []
      end /\
    self' = self /\
    get (Swarm.peers (swarm_at self' infoHash)) peerId = Own (Some p) /\
    forall socket2 data2 sender,
      addressed data2 infoHash sender ->
      event data2 = EventString (js "answered") ->
      absent (get (Swarm.peers (swarm_at self' infoHash)) sender) = false ->
      to_peer_id data2 = Some peerId ->
      _onSocketMessage self' socket2 (JSONValue data2)
      = match offers_length data2 with
        | Converts _ =>
            Returned self'
              [Send (Peer.socket p) (Answer (answer data2));
               Emit "answer" None]
        | NumberThrows => Thrown self' []
        end.
Proof.
  intros Haddr Hev Hget.
  pose proof (swarm_of_own_peer _ _ _ _ Hget) as Hown.
  pose proof (resolves_own _ _ _ Hown) as Hkey.
  exists self. split; [|split; [reflexivity|split; [exact Hget|]]].
  - destruct (offers_length data) as [length|] eqn:Hlen.
    + rewrite (started_duplicate self socket data infoHash peerId Haddr Hkey
                 length Hlen Hev).
      * now rewrite (store_swarm_at _ _ _ Hown).
      * now rewrite Hget.
    + rewrite (_onSocketMessage_unconvertible _ _ _ _ _ Haddr Hkey Hlen).
      now rewrite (store_swarm_at _ _ _ Hown).
  - intros socket2 data2 sender Haddr2 Hev2 Habs Hto.
    destruct (offers_length data2) as [length|] eqn:Hlen.
    + rewrite (answered_relayed self socket2 data2 infoHash sender Haddr2 Hkey
                 length Hlen peerId p Hev2 Habs Hto).
      * now rewrite (store_swarm_at _ _ _ Hown).
      * destruct Haddr as (_ & _ & _ & L). now destruct peerId.
      * exact Hget.
    + rewrite (_onSocketMessage_unconvertible _ _ _ _ _ Haddr2 Hkey Hlen).
      now rewrite (store_swarm_at _ _ _ Hown).
Qed.

Lemma second_started_witness :
  exists self',
    _onSocketMessage one_leecher 2%nat
      (JSONValue (announce hash_a peer_1 "started" false None))
    = Returned self'
        [Send 2%nat
           (Response (Swarm.complete (swarm_at one_leecher hash_a))
              (Swarm.incomplete (swarm_at one_leecher hash_a))
              (_intervalMs one_leecher)
              (Some "unexpected `started` event from peer that is already in swarm"))] /\
    self' = one_leecher /\
    get (Swarm.peers (swarm_at self' hash_a)) peer_1
    = Own (Some (Peer.mk 1%nat peer_1 false)) /\
    forall socket2 data2 sender,
      addressed data2 hash_a sender ->
      event data2 = EventString (js "answered") ->
      absent (get (Swarm.peers (swarm_at self' hash_a)) sender) = false ->
      to_peer_id data2 = Some peer_1 ->
      _onSocketMessage self' socket2 (JSONValue data2)
      = match offers_length data2 with
        | Converts _ =>
            Returned self'
              [Send (Peer.socket (Peer.mk 1%nat peer_1 false))
                 (Answer (answer data2));
               Emit "answer" None]
        | NumberThrows => Thrown self' []
        end.
Proof.
  apply (duplicate_started_keeps_stored_connection one_leecher 2%nat
           (announce hash_a peer_1 "started" false None) hash_a peer_1
           (Peer.mk 1%nat peer_1 false));
    repeat split; reflexivity.
Defined.

(** ** [getSwarm]: one key for both forms of an info hash *)



Lemma _getSwarm_again self key self1 ref :
  _getSwarm self key = (self1, ref) -> _getSwarm self1 key = (self1, ref).
Proof.
  unfold _getSwarm, get.
  destruct (own (torrents self) key) as [swarm|] eqn:E.
  - intros [= <- <-]. now rewrite E.
  - destruct (inherited key) eqn:I.
    + intros [= <- <-]. now rewrite E.
    + intros [= <- <-]. simpl. now rewrite own_put_same.
Qed.

(** C8. The claim: for every 20-byte info hash, [getSwarm] on its bytes and
    [getSwarm] on their hex encoding resolve to the same Swarm. The code at
    the 20 bytes that spell [propertyIsEnumerable]: both forms are
    normalized to that one key, but line 84 reads [self.torrents[key]]
    through the prototype chain and finds the method of that name, which is
    truthy; line 85 takes it for a swarm, nothing is created, and both calls
    return the method, which is no Swarm. It is so on a new server and on
    one that holds swarms. *)
Theorem getSwarm_of_inherited_name_is_no_swarm :
  List.length (Buffer_binary propertyIsEnumerable) = 20%nat /\
  toString_hex (Buffer_binary propertyIsEnumerable)
  = js "70726f70657274794973456e756d657261626c65" /\
  getSwarm (new_Server None) (IsBuffer (Buffer_binary propertyIsEnumerable))
  = Some (new_Server None, PrototypeMember propertyIsEnumerable) /\
  getSwarm (new_Server None)
    (HexString (js "70726f70657274794973456e756d657261626c65"))
  = Some (new_Server None, PrototypeMember propertyIsEnumerable) /\
  getSwarm one_leecher (IsBuffer (Buffer_binary propertyIsEnumerable))
  = Some (one_leecher, PrototypeMember propertyIsEnumerable) /\
  getSwarm one_leecher
    (HexString (js "70726f70657274794973456e756d657261626c65"))
  = Some (one_leecher, PrototypeMember propertyIsEnumerable).
Proof. repeat split; reflexivity. Qed.

(** ** The reconnecting socket, one connection attempt at a time *)

Lemma nth_error_update_same l : forall ws c x,
  nth_error l ws = Some x -> nth_error (Socket.update l ws c) ws = Some c.
Proof.
  induction l as [|y l IH]; intros [|ws] c x; simpl; try discriminate; auto.
  apply IH.
Qed.

Lemma nth_error_update_other l : forall ws ws' c,
  ws <> ws' -> nth_error (Socket.update l ws c) ws' = nth_error l ws'.
Proof.
  induction l as [|y l IH]; intros [|ws] [|ws'] c H; simpl; auto;
    try congruence.
Qed.

Lemma quiet_app a b : quiet (a ++ b) = quiet a && quiet b.
Proof. apply forallb_app. Qed.

Lemma quiet_no_warning trace :
  quiet trace = true -> existsb is_emit_warning trace = false.
Proof.
  induction trace as [|e trace IH]; simpl; [reflexivity|].
  rewrite andb_true_iff, negb_true_iff, orb_false_iff.
  intros [[-> _] H]. now apply IH.
Qed.

Lemma quiet_no_close trace :
  quiet trace = true -> existsb is_emit_close trace = false.
Proof.
  induction trace as [|e trace IH]; simpl; [reflexivity|].
  rewrite andb_true_iff, negb_true_iff, orb_false_iff.
  intros [[_ ->] H]. now apply IH.
Qed.

Lemma warnings_app a b : warnings (a ++ b) = (warnings a + warnings b)%nat.
Proof. unfold warnings. now rewrite filter_app, length_app. Qed.

Lemma warnings_none trace :
  existsb is_emit_warning trace = false -> warnings trace = 0%nat.
Proof.
  unfold warnings. induction trace as [|e trace IH]; simpl; [reflexivity|].
  rewrite orb_false_iff. intros [-> H]. now apply IH.
Qed.

(** No turn changes the url or the delay. *)
Lemma step_fields self i :
  Socket._url (fst (Socket.step self i)) = Socket._url self /\
  Socket._reconnectTimeout (fst (Socket.step self i))
  = Socket._reconnectTimeout self.
Proof.
  destruct i as [ws r| |]; simpl.
  - destruct (nth_error (Socket.created self) ws) as [c|]; [|now simpl].
    destruct (Socket.handlers c); [|now simpl].
    destruct r; simpl; auto.
    destruct (Socket.onerror_called c); [now simpl|].
    unfold Socket._onerror, Socket.close; simpl.
    now destruct (Socket._ws self).
  - now destruct (Socket.timeouts self).
  - unfold Socket.close. now destruct (Socket._ws self).
Qed.

Lemma run_fields inputs : forall self,
  Socket._url (fst (Socket.run self inputs)) = Socket._url self /\
  Socket._reconnectTimeout (fst (Socket.run self inputs))
  = Socket._reconnectTimeout self.
Proof.
  induction inputs as [|i inputs IH]; intros self; simpl; [now split|].
  destruct (step_fields self i) as [Hu Ht].
  destruct (Socket.step self i) as [self1 tr]; simpl in *.
  destruct (IH self1) as [Hu' Ht'].
  destruct (Socket.run self1 inputs) as [self2 tr']; simpl in *.
  split; congruence.
Qed.

Lemma run_app a : forall self b,
  Socket.run self (a ++ b)
  = (fst (Socket.run (fst (Socket.run self a)) b),
     snd (Socket.run self a) ++ snd (Socket.run (fst (Socket.run self a)) b)).
Proof.
  induction a as [|i a IH]; intros self b; simpl.
  - now destruct (Socket.run self b).
  - destruct (Socket.step self i) as [self1 tr].
    rewrite IH.
    destruct (Socket.run self1 a) as [self2 tr2]; simpl.
    destruct (Socket.run self2 b) as [self3 tr3]; simpl.
    now rewrite app_assoc.
Qed.

Section Attempt.
Variable ws : nat.

Lemma failed_intro self c :
  Socket._errored self = true ->
  (0 < Socket.timeouts self)%nat ->
  nth_error (Socket.created self) ws = Some c ->
  Socket.handlers c = false \/ Socket.onerror_called c = true ->
  failed ws self.
Proof. unfold failed; eauto. Qed.

Lemma step_failed self i :
  during ws i = true -> failed ws self ->
  failed ws (fst (Socket.step self i)) /\
  quiet (snd (Socket.step self i)) = true.
Proof.
  intros Hd Hf. pose proof Hf as (He & Ht & c & Hc & Hdone).
  destruct i as [ws' r| |]; simpl in Hd; [|discriminate|].
  - apply Nat.eqb_eq in Hd; subst ws'. simpl. rewrite Hc.
    destruct (Socket.handlers c) eqn:Hh; [|now simpl].
    destruct Hdone as [|Hcalled]; [discriminate|].
    destruct r; simpl; try (split; [exact Hf|reflexivity]).
    + rewrite He. simpl. split; [|reflexivity].
      destruct (Socket._ws self) as [w|]; simpl;
        [|now apply (failed_intro _ c); auto].
      destruct (Nat.eq_dec w ws) as [->|Hne].
      * rewrite Hc.
        apply (failed_intro _
                 {| Socket.handlers := false;
                    Socket.onerror_called := Socket.onerror_called c |});
          simpl; auto.
        eapply nth_error_update_same; eauto.
      * apply (failed_intro _ c); simpl; auto.
        destruct (nth_error (Socket.created self) w);
          [rewrite nth_error_update_other by auto|]; exact Hc.
    + rewrite Hcalled. simpl. split; [exact Hf|reflexivity].
  - simpl. unfold Socket.close, Socket._onclose.
    destruct (Socket._ws self) as [w|]; simpl.
    + split; [exact Hf|reflexivity].
    + rewrite He. simpl. split; [|reflexivity].
      apply (failed_intro _ c); auto.
Qed.

Lemma run_failed inputs : forall self,
  forallb (during ws) inputs = true -> failed ws self ->
  quiet (snd (Socket.run self inputs)) = true /\
  failed ws (fst (Socket.run self inputs)).
Proof.
  induction inputs as [|i inputs IH]; intros self Hd Hf; simpl.
  - split; [reflexivity|exact Hf].
  - simpl in Hd. apply andb_true_iff in Hd. destruct Hd as [Hi Hd].
    destruct (step_failed self i Hi Hf) as (Hf' & Hq).
    destruct (Socket.step self i) as [self1 tr]; simpl in *.
    destruct (IH self1 Hd Hf') as [Hq' He'].
    destruct (Socket.run self1 inputs) as [self2 tr']; simpl in *.
    now rewrite quiet_app, Hq, Hq'.
Qed.

Lemma trying__init self :
  ws = List.length (Socket.created self) ->
  trying ws (fst (Socket._init self)).
Proof.
  intros H. unfold trying; simpl. rewrite H.
  split; [reflexivity|]. split; [reflexivity|].
  rewrite nth_error_app2 by lia. now rewrite Nat.sub_diag.
Qed.
End Attempt.

(** ** One warning per connection, in any order of events *)

Lemma warnings_of_app ws a b :
  warnings_of ws (a ++ b) = (warnings_of ws a + warnings_of ws b)%nat.
Proof. unfold warnings_of. now rewrite filter_app, length_app. Qed.

Lemma spent_update_handlers self ws w c handlers' :
  nth_error (Socket.created self) w = Some c ->
  match
    nth_error
      (Socket.update (Socket.created self) w
         {| Socket.handlers := handlers';
            Socket.onerror_called := Socket.onerror_called c |}) ws
  with
  | Some c' => if Socket.onerror_called c' then 1%nat else 0%nat
  | None => 0%nat
  end = spent ws self.
Proof.
  intros Hc. unfold spent. destruct (Nat.eq_dec w ws) as [->|Hne].
  - rewrite (nth_error_update_same _ _ _ _ Hc), Hc. reflexivity.
  - now rewrite nth_error_update_other.
Qed.

Lemma spent__onclose self ws : spent ws (fst (Socket._onclose self)) = spent ws self.
Proof.
  unfold spent at 1; simpl.
  destruct (Socket._ws self) as [w|]; [|reflexivity].
  destruct (nth_error (Socket.created self) w) as [c|] eqn:Hc; [|reflexivity].
  now apply spent_update_handlers.
Qed.

(** Each turn adds to [spent] exactly the warnings it emits for [ws]. *)
Lemma step_spent self i ws :
  (spent ws self + warnings_of ws (snd (Socket.step self i)))%nat
  = spent ws (fst (Socket.step self i)).
Proof.
  assert (Hclose : (spent ws self + warnings_of ws (snd (Socket._onclose self)))%nat
                   = spent ws (fst (Socket._onclose self))).
  { rewrite spent__onclose. unfold warnings_of; simpl.
    destruct (Socket._errored self); simpl; lia. }
  destruct i as [w r| |]; simpl.
  - destruct (nth_error (Socket.created self) w) as [c|] eqn:Hc;
      [|unfold warnings_of; simpl; lia].
    destruct (Socket.handlers c) eqn:Hh; [|unfold warnings_of; simpl; lia].
    destruct r; try (unfold warnings_of; simpl; lia); [exact Hclose|].
    destruct (Socket.onerror_called c) eqn:Hcalled;
      [unfold warnings_of; simpl; lia|].
    assert (Hs : spent ws (Socket.called self w c)
                 = (spent ws self + if Nat.eqb w ws then 1 else 0)%nat).
    { unfold spent, Socket.called; simpl.
      destruct (Nat.eqb_spec w ws) as [->|Hne].
      - rewrite (nth_error_update_same _ _ _ _ Hc), Hc, Hcalled. reflexivity.
      - rewrite nth_error_update_other by auto. lia. }
    unfold Socket._onerror, Socket.close.
    cbn [Socket._ws Socket.called].
    destruct (Socket._ws self) as [w'|] eqn:Hw.
    + cbn [fst snd]. unfold warnings_of; simpl.
      change (spent ws _) with (spent ws (Socket.called self w c)) at 2.
      rewrite Hs. destruct (Nat.eqb w ws); simpl; lia.
    + unfold Socket._onclose. cbn [fst snd Socket._ws Socket._errored].
      unfold warnings_of; simpl.
      change (spent ws _) with (spent ws (Socket.called self w c)) at 2.
      rewrite Hs. destruct (Nat.eqb w ws); simpl; lia.
  - destruct (Socket.timeouts self); [unfold warnings_of; simpl; lia|].
    unfold spent, warnings_of; simpl.
    destruct (Nat.lt_ge_cases ws (List.length (Socket.created self))) as [L|G].
    + rewrite nth_error_app1 by auto. lia.
    + rewrite (proj2 (nth_error_None _ _) G).
      rewrite nth_error_app2 by auto.
      destruct (ws - List.length (Socket.created self))%nat as [|[|k]];
        simpl; reflexivity.
  - unfold Socket.close. destruct (Socket._ws self) as [w|];
      [unfold warnings_of; simpl; lia|exact Hclose].
Qed.

Lemma spent_le_1 self ws : (spent ws self <= 1)%nat.
Proof.
  unfold spent. destruct (nth_error (Socket.created self) ws) as [c|]; [|lia].
  destruct (Socket.onerror_called c); lia.
Qed.

(** Whatever the connections report and in whatever order, with timeouts
    and calls of [close] in between, no connection has more than one warning
    emitted for it. *)
Lemma at_most_one_warning_per_connection inputs : forall self ws,
  (spent ws self + warnings_of ws (snd (Socket.run self inputs)) <= 1)%nat.
Proof.
  induction inputs as [|i inputs IH]; intros self ws; simpl.
  - pose proof (spent_le_1 self ws). unfold warnings_of; simpl. lia.
  - pose proof (step_spent self i ws) as Hs.
    destruct (Socket.step self i) as [self1 tr]; simpl in *.
    specialize (IH self1 ws).
    destruct (Socket.run self1 inputs) as [self2 tr']; simpl in *.
    rewrite warnings_of_app. lia.
Qed.

(** While the connection is up the attempt goes on, and neither [warning]
    nor [close] is emitted. *)
Lemma run_calm ws inputs : forall self,
  forallb (calm ws) inputs = true -> trying ws self ->
  trying ws (fst (Socket.run self inputs)) /\
  quiet (snd (Socket.run self inputs)) = true.
Proof.
  induction inputs as [|i inputs IH]; intros self Hc Ht; simpl;
    [now split|].
  simpl in Hc. apply andb_true_iff in Hc. destruct Hc as [Hi Hc].
  assert (H1 : trying ws (fst (Socket.step self i)) /\
               quiet (snd (Socket.step self i)) = true).
  { destruct Ht as (He & Hw & Hn).
    destruct i as [ws' r| |]; simpl in Hi; try discriminate.
    - destruct r; try discriminate; apply Nat.eqb_eq in Hi; subst ws';
        simpl; rewrite Hn; simpl; repeat split; auto.
    - simpl. unfold Socket.close. rewrite Hw. simpl. repeat split; auto. }
  destruct H1 as [Ht1 Hq1].
  destruct (Socket.step self i) as [self1 tr]; simpl in *.
  destruct (IH self1 Hc Ht1) as [Ht2 Hq2].
  destruct (Socket.run self1 inputs) as [self2 tr']; simpl in *.
  split; [exact Ht2|]. now rewrite quiet_app, Hq1, Hq2.
Qed.

(** C9, as the code has it. Take any connection attempt: [_init] creates
    the connection, which opens and carries messages or not, and then
    reports an error. From there until the timeout that starts the next
    attempt fires, the connection may report anything: errors, as often as
    it likes, and its close; and the owner may call [close]. Then the
    error path is taken exactly once, at the first error: [close] of the
    connection, [setTimeout] of [_init] with the configured delay, the
    [warning]. Neither [warning] nor [close] is emitted anywhere else in
    the attempt, before or after; [_errored] stays set, and the timeout,
    when it fires, opens a connection to the same url. The configured delay
    is [opts.reconnectTimeout], or 5000 when none is given. And in any order
    of events at all, no connection has more than one warning emitted for
    it. *)
Theorem one_warning_per_attempt_then_reconnect self up down :
  forallb (calm (List.length (Socket.created self))) up = true ->
  forallb (during (List.length (Socket.created self))) down = true ->
  (exists before after,
     snd (Socket.run (fst (Socket._init self))
            (up ++ Socket.Fire (List.length (Socket.created self))
                     Socket.onerror :: down))
     = before
       ++ [ Socket.ws_close (List.length (Socket.created self));
            Socket.setTimeout_init (Socket._reconnectTimeout self);
            Socket.emit_warning (List.length (Socket.created self)) ]
       ++ after /\
     quiet before = true /\ quiet after = true) /\
  warnings
    (snd (Socket.run (fst (Socket._init self))
            (up ++ Socket.Fire (List.length (Socket.created self))
                     Socket.onerror :: down))) = 1%nat /\
  existsb is_emit_close
    (snd (Socket.run (fst (Socket._init self))
            (up ++ Socket.Fire (List.length (Socket.created self))
                     Socket.onerror :: down))) = false /\
  Socket._errored
    (fst (Socket.run (fst (Socket._init self))
            (up ++ Socket.Fire (List.length (Socket.created self))
                     Socket.onerror :: down))) = true /\
  snd (Socket.step
         (fst (Socket.run (fst (Socket._init self))
                 (up ++ Socket.Fire (List.length (Socket.created self))
                          Socket.onerror :: down)))
         Socket.Timeout)
  = [Socket.new_WebSocket (Socket._url self)] /\
  (forall url,
      Socket._reconnectTimeout (fst (Socket.new_Socket url None)) = 5000%N) /\
  (forall url ms, ms <> 0%N ->
      Socket._reconnectTimeout (fst (Socket.new_Socket url (Some ms))) = ms) /\
  (forall any ws,
      (warnings_of ws (snd (Socket.run (fst (Socket._init self)) any)) <= 1)%nat).
Proof.
  intros Hup Hdown.
  set (ws := List.length (Socket.created self)) in *.
  set (inputs := up ++ Socket.Fire ws Socket.onerror :: down).
  assert (H : exists before after,
            snd (Socket.run (fst (Socket._init self)) inputs)
            = before
              ++ [ Socket.ws_close ws;
                   Socket.setTimeout_init (Socket._reconnectTimeout self);
                   Socket.emit_warning ws ]
              ++ after /\
            quiet before = true /\ quiet after = true /\
            failed ws (fst (Socket.run (fst (Socket._init self)) inputs))).
  { unfold inputs. rewrite run_app. cbn [fst snd].
    destruct (run_calm ws up (fst (Socket._init self)) Hup
                (trying__init ws self eq_refl)) as [Ht Hq].
    destruct (run_fields up (fst (Socket._init self))) as [_ HT].
    change (Socket._reconnectTimeout (fst (Socket._init self)))
      with (Socket._reconnectTimeout self) in HT.
    set (self1 := fst (Socket.run (fst (Socket._init self)) up)) in *.
    set (tr1 := snd (Socket.run (fst (Socket._init self)) up)) in *.
    assert (Hs : failed ws (fst (Socket.step self1 (Socket.Fire ws Socket.onerror)))
                 /\ snd (Socket.step self1 (Socket.Fire ws Socket.onerror))
                    = [ Socket.ws_close ws;
                        Socket.setTimeout_init (Socket._reconnectTimeout self);
                        Socket.emit_warning ws ]).
    { destruct Ht as (He & Hw & Hn). simpl. rewrite Hn. simpl.
      unfold Socket._onerror, Socket.close. simpl. rewrite Hw. simpl.
      rewrite HT. split; [|reflexivity].
      eapply failed_intro; simpl;
        [reflexivity|lia|eapply nth_error_update_same; eauto|now right]. }
    destruct Hs as [Hf Htr].
    cbn [Socket.run].
    destruct (Socket.step self1 (Socket.Fire ws Socket.onerror))
      as [self2 tr2]; cbn [fst snd] in *.
    destruct (run_failed ws down self2 Hdown Hf) as [Hq3 Hf3].
    destruct (Socket.run self2 down) as [self3 tr3]; cbn [fst snd] in *.
    exists tr1, tr3. subst tr2.
    split; [reflexivity|]. split; [exact Hq|]. split; [exact Hq3|exact Hf3]. }
  destruct (run_fields inputs (fst (Socket._init self))) as [Hurl _].
  change (Socket._url (fst (Socket._init self))) with (Socket._url self)
    in Hurl.
  destruct H as (before & after & Htrace & Hb & Ha & He & Ht & _).
  fold inputs.
  destruct (Socket.run (fst (Socket._init self)) inputs) as [final trace]
    eqn:Hrun; cbn [fst snd] in *.
  split; [now exists before, after|].
  split.
  { rewrite Htrace, !warnings_app.
    rewrite (warnings_none _ (quiet_no_warning _ Hb)).
    rewrite (warnings_none _ (quiet_no_warning _ Ha)). reflexivity. }
  split.
  { rewrite Htrace, !existsb_app.
    rewrite (quiet_no_close _ Hb), (quiet_no_close _ Ha). reflexivity. }
  split; [exact He|].
  split.
  { simpl. destruct (Socket.timeouts final); [lia|]. simpl. now rewrite Hurl. }
  split; [reflexivity|].
  split.
  { intros url ms Hms. simpl. apply N.eqb_neq in Hms. now rewrite Hms. }
  intros any ws'.
  pose proof (at_most_one_warning_per_connection any
                (fst (Socket._init self)) ws').
  lia.
Qed.

Lemma failing_attempt_witness :
  (exists before after,
     snd (Socket.run (fst (Socket._init (unconnected a_url 5000)))
            failing_attempt)
     = before
       ++ [ Socket.ws_close 0; Socket.setTimeout_init 5000;
            Socket.emit_warning 0 ]
       ++ after /\
     quiet before = true /\ quiet after = true) /\
  warnings
    (snd (Socket.run (fst (Socket._init (unconnected a_url 5000)))
            failing_attempt)) = 1%nat /\
  existsb is_emit_close
    (snd (Socket.run (fst (Socket._init (unconnected a_url 5000)))
            failing_attempt)) = false /\
  Socket._errored
    (fst (Socket.run (fst (Socket._init (unconnected a_url 5000)))
            failing_attempt)) = true /\
  snd (Socket.step
         (fst (Socket.run (fst (Socket._init (unconnected a_url 5000)))
                 failing_attempt))
         Socket.Timeout)
  = [Socket.new_WebSocket a_url] /\
  (forall url,
      Socket._reconnectTimeout (fst (Socket.new_Socket url None)) = 5000%N) /\
  (forall url ms, ms <> 0%N ->
      Socket._reconnectTimeout (fst (Socket.new_Socket url (Some ms))) = ms) /\
  (forall any ws,
      (warnings_of ws
         (snd (Socket.run (fst (Socket._init (unconnected a_url 5000))) any))
       <= 1)%nat).
Proof.
  apply (one_warning_per_attempt_then_reconnect (unconnected a_url 5000)
           [] [Socket.Fire 0 Socket.onerror; Socket.Fire 0 Socket.onclose]);
    reflexivity.
Defined.

(** C9, as the claim has it, fails when the failed connection reports its
    close only after the timeout has fired. Nothing in the code makes the
    timeout wait for it: [_onerror] sets it right after calling [close].
    [_init] has then cleared [_errored], and [this._ws] is the next
    connection: [close] is emitted for the attempt that ended in error, and
    it is the new connection that loses its handlers. *)
Lemma late_close_reaches_the_next_attempt :
  Socket.run (fst (Socket.new_Socket a_url None))
    [ Socket.Fire 0 Socket.onerror; Socket.Timeout;
      Socket.Fire 0 Socket.onclose ]
  = ({| Socket._url := a_url;
        Socket._reconnectTimeout := 5000;
        Socket._errored := false;
        Socket._ws := None;
        Socket.created :=
          [ {| Socket.handlers := true; Socket.onerror_called := true |};
            {| Socket.handlers := false; Socket.onerror_called := false |} ];
        Socket.timeouts := 0 |},
     [ Socket.ws_close 0; Socket.setTimeout_init 5000; Socket.emit_warning 0;
       Socket.new_WebSocket a_url; Socket.emit_close ]).
Proof. reflexivity. Qed.

(** * Further properties of the tracker *)

(** ** Peer selection *)

(** X1. [_getPeers] returns entries of [peers] that are not [null], from
    the first on in the order of [for..in], and stops at the first length
    that is [>= numWant]. For a number [q] these are the first [ceiling q]
    of them (none when [q <= 0]): exactly the first [n], and so never more
    than [numWant], when [numWant] is the natural number [n]; one more than
    [numWant] allows when it has a fraction. [-Infinity] gives none; no
    length is [>= Infinity] or [>= NaN], which give them all. *)
Theorem _getPeers_takes_the_first_present swarm :
  (forall q,
      _getPeers swarm (Num q)
      = firstn (Z.to_nat (Qceiling q)) (present swarm)) /\
  (forall n,
      _getPeers swarm (Num (inject_Z (Z.of_nat n)))
      = firstn n (present swarm) /\
      (List.length (_getPeers swarm (Num (inject_Z (Z.of_nat n)))) <= n)%nat) /\
  _getPeers swarm MinusInfinity = [] /\
  _getPeers swarm PlusInfinity = present swarm /\
  _getPeers swarm NaN = present swarm /\
  forall numWant,
    exists rest, present swarm = _getPeers swarm numWant ++ rest.
Proof.
  split; [intros q; now rewrite _getPeers_take|].
  split.
  { intros n. rewrite _getPeers_take. simpl.
    rewrite Qceiling_Z, Nat2Z.id. split; [reflexivity|].
    apply firstn_le_length. }
  split; [now rewrite _getPeers_take|].
  split; [now rewrite _getPeers_take|].
  split; [now rewrite _getPeers_take|].
  intros numWant. rewrite _getPeers_take.
  destruct (wanted numWant) as [k|]; simpl.
  - exists (skipn k (present swarm)). now rewrite firstn_skipn.
  - exists []. now rewrite app_nil_r.
Qed.

(** ** The registry *)

Lemma swarm_at_store_swarm_at self key key' :
  swarm_at (store self key (swarm_at self key)) key' = swarm_at self key'.
Proof.
  destruct (eqs key key') eqn:E.
  - apply eqs_true_iff in E; subst. apply swarm_at_store.
  - apply eqs_false_iff in E. now apply swarm_at_store_other.
Qed.

Lemma get_Inherited {V} (o : object V) k name :
  get o k = Inherited name -> name = k /\ own o k = None /\ inherited k = true.
Proof.
  unfold get. destruct (own o k); [discriminate|].
  destruct (inherited k); [|discriminate]. now intros [= <-].
Qed.

(** X2. [_getSwarm] only ever adds: whatever key it is asked for, every key
    stands for the same swarm after the call as before. A swarm that is
    stored is returned as it is; a key that is new and names no member of
    [Object.prototype] gets the empty swarm with both counters 0, stored
    under that key; and asking again returns the same object and changes
    nothing. *)
Theorem _getSwarm_creates_once self key :
  (forall key', swarm_at (fst (_getSwarm self key)) key' = swarm_at self key') /\
  (forall swarm, own (torrents self) key = Some swarm ->
     _getSwarm self key = (self, SwarmAt key swarm)) /\
  (own (torrents self) key = None -> inherited key = false ->
     snd (_getSwarm self key) = SwarmAt key (Swarm.mk 0 0 []) /\
     own (torrents (fst (_getSwarm self key))) key = Some (Swarm.mk 0 0 [])) /\
  _getSwarm (fst (_getSwarm self key)) key = _getSwarm self key.
Proof.
  split; [|split; [|split]].
  - intros key'. destruct (_getSwarm self key) as [self1 [k swarm|name]] eqn:G.
    + apply _getSwarm_SwarmAt in G. destruct G as (-> & -> & ->).
      apply swarm_at_store_swarm_at.
    + now apply _getSwarm_PrototypeMember in G as ->.
  - intros swarm H. unfold _getSwarm, get. now rewrite H.
  - intros Hnone Hplain. unfold _getSwarm, get. rewrite Hnone, Hplain. simpl.
    split; [reflexivity|apply own_put_same].
  - destruct (_getSwarm self key) as [self1 ref] eqn:G.
    apply (_getSwarm_again _ _ _ _ G).
Qed.

(** ** Messages that are turned down, and calls that throw *)

(** X3. The ids are checked in the order of lines 108-111. A message whose
    [info_hash] is not a string of length 20 gets the failure
    [invalid info_hash], whatever its [peer_id]; one whose [info_hash] passes
    and whose decoded [peer_id] is not a string of length 20 gets
    [invalid peer_id]; text that is no JSON gets [invalid socket message].
    In each case the sender gets that one failure, one warning is emitted,
    and the server is left exactly as it was. *)
Theorem ids_are_checked_in_order self socket data :
  _onSocketMessage self socket NotJSON
  = Returned self (error socket "invalid socket message") /\
  (well_sized (info_hash data) = false ->
   _onSocketMessage self socket (JSONValue data)
   = Returned self (error socket "invalid info_hash")) /\
  (well_sized (info_hash data) = true ->
   well_sized (option_map binaryToUtf8 (peer_id data)) = false ->
   _onSocketMessage self socket (JSONValue data)
   = Returned self (error socket "invalid peer_id")).
Proof.
  split; [reflexivity|]. unfold well_sized, _onSocketMessage. split.
  - destruct (info_hash data) as [[|c infoHash]|]; try reflexivity.
    now intros ->.
  - destruct (info_hash data) as [[|c infoHash]|]; try discriminate.
    intros ->. simpl.
    destruct (option_map binaryToUtf8 (peer_id data)) as [[|d peerId]|];
      try reflexivity.
    now intros ->.
Qed.

Lemma ids_are_checked_in_order_witness :
  _onSocketMessage one_leecher 3%nat
    (JSONValue (announce (js "short") peer_1 "started" false None))
  = Returned one_leecher (error 3%nat "invalid info_hash") /\
  _onSocketMessage one_leecher 3%nat
    (JSONValue (announce hash_a (js "short") "started" false None))
  = Returned one_leecher (error 3%nat "invalid peer_id").
Proof.
  split.
  - apply (ids_are_checked_in_order one_leecher 3%nat
             (announce (js "short") peer_1 "started" false None)).
    reflexivity.
  - apply (ids_are_checked_in_order one_leecher 3%nat
             (announce hash_a (js "short") "started" false None));
      reflexivity.
Defined.

Lemma switch_event_Throw self socket data swarm peerId peer :
  switch_event self socket data swarm peerId peer = Throw ->
  event data = EventString (js "started") /\
  absent peer = true /\ left_is_zero data = NumberThrows \/
  event data = EventString (js "answered") /\
  absent peer = false /\
  exists toPeerId,
    to_peer_id data = Some toPeerId /\
    get (Swarm.peers swarm) toPeerId = Inherited toPeerId.
Proof.
  unfold switch_event.
  destruct (event data) as [|s|]; [unfold case_update; now destruct absent| |discriminate].
  destruct (eqs s (js "started")) eqn:E.
  { apply eqs_true_iff in E; subst s. unfold case_started.
    destruct (absent peer); [|discriminate].
    destruct (left_is_zero data); [discriminate|]. now left. }
  clear E.
  destruct (eqs s (js "stopped")); [unfold case_stopped; now destruct absent|].
  destruct (eqs s (js "completed")).
  { unfold case_completed. destruct peer as [[p|]|name|]; try discriminate.
    - now destruct (Peer.complete p).
    - now destruct existsb. }
  destruct (eqs s (js "")); [unfold case_update; now destruct absent|].
  destruct (eqs s (js "answered")) eqn:E; [|discriminate].
  apply eqs_true_iff in E; subst s.
  unfold case_answered. destruct (absent peer); [discriminate|].
  destruct (to_peer_id data) as [[|c t]|]; try discriminate.
  destruct (get (Swarm.peers swarm) (c :: t)) as [[?|]|name|] eqn:G;
    try discriminate.
  intros _. destruct (get_Inherited _ _ _ G) as (-> & _ & _).
  right. split; [reflexivity|]. split; [reflexivity|]. now exists (c :: t).
Qed.

(** X4. The handler throws in five cases only: the text is [null]; the
    [info_hash] names a member of [Object.prototype] and no swarm is stored
    under it; [Number] cannot convert the length of [offers] (line 117);
    the message is a [started] from a peer that is not in the swarm and
    [Number] cannot convert its [left] (line 128); or the message is an
    [answered] from a peer that is in the swarm, whose [to_peer_id] names a
    member of [Object.prototype] that is no entry of [peers]. When it throws
    it has sent nothing and emitted nothing, and every key stands for the
    same swarm as before. *)
Theorem throws_before_any_effect self socket data self' trace :
  _onSocketMessage self socket data = Thrown self' trace ->
  trace = [] /\
  (forall key, swarm_at self' key = swarm_at self key) /\
  (data = JSONNull \/
   exists m infoHash peerId,
     data = JSONValue m /\ addressed m infoHash peerId /\
     (get (torrents self) infoHash = Inherited infoHash \/
      offers_length m = NumberThrows \/
      event m = EventString (js "started") /\
      absent (get (Swarm.peers (swarm_at self infoHash)) peerId) = true /\
      left_is_zero m = NumberThrows \/
      event m = EventString (js "answered") /\
      absent (get (Swarm.peers (swarm_at self infoHash)) peerId) = false /\
      exists toPeerId,
        to_peer_id m = Some toPeerId /\
        get (Swarm.peers (swarm_at self infoHash)) toPeerId
        = Inherited toPeerId)).
Proof.
  destruct data as [| |m]; [discriminate| |].
  { intros [= <- <-]. repeat split; auto. }
  destruct (_onSocketMessage_inv self socket m)
    as [[message E]|(infoHash & peerId & Haddr & E)]; rewrite E;
    [discriminate|].
  destruct (_getSwarm self infoHash) as [self1 [key swarm|name]] eqn:G.
  - apply _getSwarm_SwarmAt in G. destruct G as (-> & -> & ->).
    destruct (offers_length m) as [length|] eqn:L.
    + destruct (switch_event _ socket m (swarm_at self infoHash) peerId _)
        as [s2 sw w em|tr|] eqn:S; simpl; try discriminate.
      intros [= <- <-]. apply switch_event_Throw in S.
      split; [reflexivity|]. split; [apply swarm_at_store_swarm_at|].
      right. exists m, infoHash, peerId.
      split; [reflexivity|]. split; [exact Haddr|].
      right. right. destruct S as [S|S]; [left|right]; exact S.
    + intros [= <- <-].
      split; [reflexivity|]. split; [apply swarm_at_store_swarm_at|].
      right. exists m, infoHash, peerId.
      split; [reflexivity|]. split; [exact Haddr|].
      right. left. exact L.
  - intros [= <- <-].
    pose proof (_getSwarm_PrototypeMember _ _ _ _ G) as ->.
    split; [reflexivity|]. split; [reflexivity|].
    right. exists m, infoHash, peerId.
    split; [reflexivity|]. split; [exact Haddr|].
    left. unfold _getSwarm in G.
    destruct (get (torrents self) infoHash) as [?|n|] eqn:Hg; try discriminate.
    now apply get_Inherited in Hg as (-> & _ & _).
Qed.

Lemma throws_before_any_effect_witness :
  trace_of (_onSocketMessage one_leecher 1%nat
              (JSONValue (answered hash_a peer_1 (js "valueOf") (js "a1"))))
  = [] /\
  (forall key,
      swarm_at
        (final (_onSocketMessage one_leecher 1%nat
                  (JSONValue (answered hash_a peer_1 (js "valueOf") (js "a1")))))
        key
      = swarm_at one_leecher key) /\
  (JSONValue (answered hash_a peer_1 (js "valueOf") (js "a1")) = JSONNull \/
   exists m infoHash peerId,
     JSONValue (answered hash_a peer_1 (js "valueOf") (js "a1")) = JSONValue m /\
     addressed m infoHash peerId /\
     (get (torrents one_leecher) infoHash = Inherited infoHash \/
      offers_length m = NumberThrows \/
      event m = EventString (js "started") /\
      absent (get (Swarm.peers (swarm_at one_leecher infoHash)) peerId) = true /\
      left_is_zero m = NumberThrows \/
      event m = EventString (js "answered") /\
      absent (get (Swarm.peers (swarm_at one_leecher infoHash)) peerId) = false /\
      exists toPeerId,
        to_peer_id m = Some toPeerId /\
        get (Swarm.peers (swarm_at one_leecher infoHash)) toPeerId
        = Inherited toPeerId)).
Proof.
  apply (throws_before_any_effect one_leecher 1%nat
           (JSONValue (answered hash_a peer_1 (js "valueOf") (js "a1")))).
  reflexivity.
Defined.

(** ** What a call sends, and to whom *)

Lemma switch_event_Return_replies self socket data swarm peerId peer trace :
  switch_event self socket data swarm peerId peer = Return trace ->
  forallb (reply_on socket) trace = true /\
  (List.length (filter is_reply trace) <= 1)%nat /\
  forallb (fun e => negb (is_introduction e)) trace = true.
Proof.
  unfold switch_event, case_started, case_stopped, case_completed,
    case_update, case_answered, error.
  intros H.
  repeat match type of H with
         | context [match ?x with _ => _ end] => destruct x
         end; inversion H; subst; simpl; rewrite ?Nat.eqb_refl; auto.
Qed.

Lemma replies_of_break em r pushes :
  forallb is_emit em = true ->
  is_reply r = true ->
  forallb is_introduction pushes = true ->
  filter is_reply (em ++ r :: pushes) = [r].
Proof.
  intros He Hr Hp. rewrite filter_app. simpl. rewrite Hr.
  assert (E1 : filter is_reply em = []).
  { clear -He. induction em as [|[s f|ev m] em IH]; simpl in *; auto.
    discriminate. }
  assert (E2 : filter is_reply pushes = []).
  { clear -Hp. induction pushes as [|[s [?|? ? ? ?|? ?|?]|ev m] pushes IH];
      simpl in *; auto; discriminate. }
  now rewrite E1, E2.
Qed.

(** X5. One call sends at most one reply (a response or a failure), and
    only on the connection the message came on; everything else it sends is
    an introduction or a relayed answer. When it sends a response, the
    introductions come after it, and nothing but events comes before. *)
Theorem at_most_one_reply_and_to_the_sender self socket data :
  (List.length
     (filter is_reply (trace_of (_onSocketMessage self socket data))) <= 1)%nat /\
  (forall s f,
      In (Send s f) (trace_of (_onSocketMessage self socket data)) ->
      is_reply (Send s f) = true -> s = socket) /\
  (existsb is_response (trace_of (_onSocketMessage self socket data)) = true ->
   exists emitted response pushes,
     trace_of (_onSocketMessage self socket data)
     = emitted ++ Send socket response :: pushes /\
     forallb is_emit emitted = true /\
     forallb is_introduction pushes = true).
Proof.
  assert (Hon : forall tr, forallb (reply_on socket) tr = true ->
                forall s f, In (Send s f) tr -> is_reply (Send s f) = true ->
                            s = socket).
  { intros tr Hall s f Hin Hr. rewrite forallb_forall in Hall.
    specialize (Hall _ Hin). destruct f; simpl in *; try discriminate;
      now apply Nat.eqb_eq. }
  destruct data as [| |m].
  { split; [simpl; lia|].
    split; [apply Hon; simpl; now rewrite Nat.eqb_refl|discriminate]. }
  { split; [simpl; lia|]. split; [intros s f []|discriminate]. }
  destruct (_onSocketMessage_inv self socket m)
    as [[message E]|(infoHash & peerId & Haddr & E)]; rewrite E.
  { split; [simpl; lia|].
    split; [apply Hon; simpl; now rewrite Nat.eqb_refl|discriminate]. }
  destruct (_getSwarm self infoHash) as [self1 [key swarm|name]].
  2:{ split; [simpl; lia|]. split; [intros s f []|discriminate]. }
  destruct (offers_length m) as [length|].
  2:{ split; [simpl; lia|]. split; [intros s f []|discriminate]. }
  destruct (switch_event self1 socket m swarm peerId
              (get (Swarm.peers swarm) peerId))
    as [s2 sw w em|tr|] eqn:S; unfold respond; cbn [trace_of].
  - pose proof (switch_event_emitted _ _ _ _ _ _ _ _ _ _ S) as Hem.
    unfold reply.
    set (r := Send socket (Response (Swarm.complete sw) (Swarm.incomplete sw)
                             (_intervalMs s2) w)).
    set (pushes := forEach_send _ 0 m peerId).
    assert (Hp : forallb is_introduction pushes = true)
      by apply forEach_send_introductions.
    pose proof (replies_of_break em r pushes Hem eq_refl Hp) as Hf.
    split; [rewrite Hf; simpl; lia|]. split.
    + intros s f Hin Hr.
      assert (Hin' : In (Send s f) (filter is_reply (em ++ r :: pushes)))
        by (apply filter_In; auto).
      rewrite Hf in Hin'. destruct Hin' as [Heq|[]].
      unfold r in Heq. now injection Heq as <- _.
    + intros _. now exists em, (Response (Swarm.complete sw)
                                  (Swarm.incomplete sw) (_intervalMs s2) w),
        pushes.
  - destruct (switch_event_Return_replies _ _ _ _ _ _ _ S) as (H1 & H2 & _).
    split; [exact H2|]. split; [now apply Hon|].
    now rewrite (switch_event_Return _ _ _ _ _ _ _ S).
  - split; [simpl; lia|]. split; [intros s f []|discriminate].
Qed.

Lemma switch_event_warning self socket data swarm peerId peer self' swarm' w em :
  switch_event self socket data swarm peerId peer
  = Break self' swarm' (Some w) em ->
  self' = self /\ swarm' = swarm /\ em = [].
Proof.
  unfold switch_event, case_started, case_stopped, case_completed,
    case_update, case_answered.
  intros H.
  repeat match type of H with
         | context [match ?x with _ => _ end] => destruct x
         end; inversion H; subst; auto.
Qed.

(** X6. A response that carries a warning means the announce was skipped:
    the call has emitted no event, every key stands for the same swarm as
    before, and the counters in the response are those the swarm had. *)
Theorem a_warning_means_nothing_changed
    self socket data self' trace c i q w :
  _onSocketMessage self socket (JSONValue data) = Returned self' trace ->
  In (Send socket (Response c i q (Some w))) trace ->
  (forall key, swarm_at self' key = swarm_at self key) /\
  prototype_complete self' = prototype_complete self /\
  existsb is_emit trace = false /\
  exists infoHash peerId,
    addressed data infoHash peerId /\
    c = Swarm.complete (swarm_at self infoHash) /\
    i = Swarm.incomplete (swarm_at self infoHash).
Proof.
  intros Hret Hin.
  destruct (_onSocketMessage_inv self socket data)
    as [[message E]|(infoHash & peerId & Haddr & E)]; rewrite E in Hret.
  { injection Hret as <- <-. simpl in Hin.
    destruct Hin as [H|[H|[]]]; discriminate. }
  destruct (_getSwarm self infoHash) as [self1 [key swarm|name]] eqn:G;
    [|discriminate].
  apply _getSwarm_SwarmAt in G. destruct G as (-> & -> & ->).
  destruct (offers_length data) as [length|]; [|discriminate].
  destruct (switch_event _ socket data (swarm_at self infoHash) peerId _)
    as [s2 sw w' em|tr|] eqn:S; simpl in Hret; [| |discriminate].
  2:{ injection Hret as <- <-.
      pose proof (switch_event_Return _ _ _ _ _ _ _ S) as Hno.
      assert (existsb is_response tr = true)
        by (apply existsb_exists; eexists; split; [exact Hin|reflexivity]).
      congruence. }
  injection Hret as <- <-.
  pose proof (switch_event_emitted _ _ _ _ _ _ _ _ _ _ S) as Hem.
  assert (Hr : In (Send socket (Response c i q (Some w)))
                 (filter is_reply
                    (em ++ reply s2 socket data peerId sw w' length)))
    by (apply filter_In; auto).
  unfold reply in Hr.
  rewrite (replies_of_break em
             (Send socket (Response (Swarm.complete sw) (Swarm.incomplete sw)
                             (_intervalMs s2) w'))
             _ Hem eq_refl (forEach_send_introductions _ _ _ _)) in Hr.
  destruct Hr as [Heq|[]]. injection Heq as <- <- <- ->.
  apply switch_event_warning in S. destruct S as (-> & -> & ->).
  rewrite store_store.
  split; [intros key; apply swarm_at_store_swarm_at|].
  split; [reflexivity|]. split.
  - simpl. unfold reply. simpl.
    generalize (forEach_send_introductions
                  (_getPeers (swarm_at self infoHash)
                     (Math_min length MAX_ANNOUNCE_PEERS))
                  0 data peerId).
    generalize (forEach_send
                  (_getPeers (swarm_at self infoHash)
                     (Math_min length MAX_ANNOUNCE_PEERS))
                  0 data peerId).
    intros l Hl. induction l as [|[s [?|? ? ? ?|? ?|?]|ev m] l IH];
      simpl in *; auto; discriminate.
  - now exists infoHash, peerId.
Qed.

Lemma a_warning_means_nothing_changed_witness :
  (forall key,
      swarm_at
        (final (_onSocketMessage one_leecher 2%nat
                  (JSONValue (announce hash_a peer_2 "stopped" false None))))
        key
      = swarm_at one_leecher key) /\
  prototype_complete
    (final (_onSocketMessage one_leecher 2%nat
              (JSONValue (announce hash_a peer_2 "stopped" false None))))
  = prototype_complete one_leecher /\
  existsb is_emit
    (trace_of (_onSocketMessage one_leecher 2%nat
                 (JSONValue (announce hash_a peer_2 "stopped" false None))))
  = false /\
  exists infoHash peerId,
    addressed (announce hash_a peer_2 "stopped" false None) infoHash peerId /\
    0%Z = Swarm.complete (swarm_at one_leecher infoHash) /\
    1%Z = Swarm.incomplete (swarm_at one_leecher infoHash).
Proof.
  apply (a_warning_means_nothing_changed one_leecher 2%nat
           (announce hash_a peer_2 "stopped" false None)
           (final (_onSocketMessage one_leecher 2%nat
                     (JSONValue (announce hash_a peer_2 "stopped" false None))))
           (trace_of (_onSocketMessage one_leecher 2%nat
                        (JSONValue (announce hash_a peer_2 "stopped" false None))))
           0%Z 1%Z (600 # 1)
           "unexpected `stopped` event from peer that is not in swarm").
  - reflexivity.
  - left. reflexivity.
Defined.

(** ** Events that only read *)

Lemma switch_event_reads self socket data swarm peerId peer :
  event data = EventUndefined \/ event data = EventString [] \/
  event data = EventString (js "answered") ->
  match switch_event self socket data swarm peerId peer with
  | Break self' swarm' _ _ => self' = self /\ swarm' = swarm
  | _ => True
  end.
Proof.
  unfold switch_event.
  intros [-> | [-> | ->]].
  - unfold case_update. now destruct (absent peer).
  - change (eqs [] (js "started")) with false.
    change (eqs [] (js "stopped")) with false.
    change (eqs [] (js "completed")) with false.
    change (eqs [] (js "")) with true. cbv iota.
    unfold case_update. now destruct (absent peer).
  - change (eqs (js "answered") (js "started")) with false.
    change (eqs (js "answered") (js "stopped")) with false.
    change (eqs (js "answered") (js "completed")) with false.
    change (eqs (js "answered") (js "")) with false.
    change (eqs (js "answered") (js "answered")) with true. cbv iota.
    unfold case_answered. destruct (absent peer); [now split|].
    destruct (to_peer_id data) as [[|c t]|]; auto.
    now destruct (get (Swarm.peers swarm) (c :: t)) as [[?|]| |].
Qed.

(** X7. An update (no [event], or the empty one) and an [answered] never
    change a swarm: whatever the message holds and however the call ends,
    every key stands for the same swarm afterwards, counters and entries
    alike, and no [complete] mark is set. *)
Theorem update_and_answered_change_no_swarm self socket data :
  event data = EventUndefined \/ event data = EventString [] \/
  event data = EventString (js "answered") ->
  (forall key,
      swarm_at (final (_onSocketMessage self socket (JSONValue data))) key
      = swarm_at self key) /\
  prototype_complete (final (_onSocketMessage self socket (JSONValue data)))
  = prototype_complete self.
Proof.
  intros Hev.
  destruct (_onSocketMessage_inv self socket data)
    as [[message E]|(infoHash & peerId & Haddr & E)]; rewrite E;
    [now split|].
  destruct (_getSwarm self infoHash) as [self1 [key swarm|name]] eqn:G.
  - apply _getSwarm_SwarmAt in G. destruct G as (-> & -> & ->).
    pose proof (switch_event_reads (store self infoHash (swarm_at self infoHash))
                  socket data (swarm_at self infoHash) peerId
                  (get (Swarm.peers (swarm_at self infoHash)) peerId) Hev) as H.
    destruct (offers_length data) as [length|];
      [|split; [intros key; apply swarm_at_store_swarm_at|reflexivity]].
    destruct switch_event as [s2 sw w em|tr|]; simpl.
    + destruct H as (-> & ->). rewrite store_store.
      split; [intros key; apply swarm_at_store_swarm_at|reflexivity].
    + split; [intros key; apply swarm_at_store_swarm_at|reflexivity].
    + split; [intros key; apply swarm_at_store_swarm_at|reflexivity].
  - apply _getSwarm_PrototypeMember in G as ->. now split.
Qed.

Lemma update_and_answered_witness :
  (forall key,
      swarm_at
        (final (_onSocketMessage one_leecher 1%nat
                  (JSONValue (answered hash_a peer_1 peer_1 (js "a1")))))
        key
      = swarm_at one_leecher key) /\
  prototype_complete
    (final (_onSocketMessage one_leecher 1%nat
              (JSONValue (answered hash_a peer_1 peer_1 (js "a1")))))
  = prototype_complete one_leecher.
Proof.
  apply (update_and_answered_change_no_swarm one_leecher 1%nat
           (answered hash_a peer_1 peer_1 (js "a1"))).
  right; right; reflexivity.
Defined.

(** ** The interval *)

Lemma carries_no_response q trace :
  existsb is_response trace = false -> Forall (carries q) trace.
Proof.
  induction trace as [|e trace IH]; simpl; [constructor|].
  rewrite orb_false_iff. intros [He Ht]. constructor; [|now apply IH].
  destruct e as [s [?|? ? ? ?|? ?|?]|ev m]; simpl in *; auto. discriminate.
Qed.

Lemma _onSocketMessage_interval self socket data :
  _intervalMs (final (_onSocketMessage self socket data)) = _intervalMs self /\
  Forall (carries (_intervalMs self))
    (trace_of (_onSocketMessage self socket data)).
Proof.
  destruct data as [| |m].
  { split; [reflexivity|]. now apply carries_no_response. }
  { split; [reflexivity|constructor]. }
  destruct (_onSocketMessage_inv self socket m)
    as [[message E]|(infoHash & peerId & Haddr & E)]; rewrite E.
  { split; [reflexivity|]. now apply carries_no_response. }
  destruct (_getSwarm self infoHash) as [self1 [key swarm|name]] eqn:G.
  2:{ apply _getSwarm_PrototypeMember in G as ->.
      split; [reflexivity|constructor]. }
  apply _getSwarm_SwarmAt in G. destruct G as (-> & -> & ->).
  destruct (offers_length m) as [length|];
    [|split; [reflexivity|constructor]].
  destruct (switch_event _ socket m (swarm_at self infoHash) peerId _)
    as [s2 sw w em|tr|] eqn:S; unfold respond; cbn [final trace_of].
  - pose proof (switch_event_emitted _ _ _ _ _ _ _ _ _ _ S) as Hem.
    apply switch_event_frame in S. destruct S as [_ Hq]. simpl in Hq.
    split; [exact Hq|].
    apply Forall_app. split.
    + apply carries_no_response. clear -Hem.
      induction em as [|[s f|ev m'] em IH]; simpl in *; auto. discriminate.
    + unfold reply. constructor; [exact Hq|].
      apply carries_no_response.
      generalize (forEach_send_introductions
                    (_getPeers sw (Math_min length MAX_ANNOUNCE_PEERS))
                    0 m peerId).
      generalize (forEach_send
                    (_getPeers sw (Math_min length MAX_ANNOUNCE_PEERS))
                    0 m peerId).
      intros l Hl. induction l as [|[s [?|? ? ? ?|? ?|?]|ev m'] l IH];
        simpl in *; auto; discriminate.
  - split; [reflexivity|].
    apply carries_no_response. apply (switch_event_Return _ _ _ _ _ _ _ S).
  - split; [reflexivity|constructor].
Qed.

(** X8. No message changes the announce interval, and every response sent
    while a run of messages is handled carries the interval the server was
    set up with. *)
Theorem every_response_carries_the_interval msgs : forall self,
  _intervalMs (final (handle_all self msgs)) = _intervalMs self /\
  Forall (carries (_intervalMs self)) (trace_of (handle_all self msgs)).
Proof.
  induction msgs as [|[socket data] msgs IH]; intros self; simpl.
  - split; [reflexivity|constructor].
  - destruct (_onSocketMessage_interval self socket data) as [Hq Ht].
    destruct (_onSocketMessage self socket data) as [self1 tr|self1 tr];
      simpl in *; [|now split].
    destruct (IH self1) as [Hq' Ht']. rewrite Hq in *.
    destruct (handle_all self1 msgs) as [self2 tr'|self2 tr']; simpl in *;
      (split; [exact Hq'|apply Forall_app; now split]).
Qed.

(** ** The counters over runs of messages *)

(** X9. Start from a server in which every swarm has [complete +
    incomplete] equal to its number of entries that are not [null], a new
    server for one. Handle any run of messages whose decoded peer ids name no
    member of [Object.prototype]. Then every key, seen or not, stands for a
    swarm for which the equation holds, also when the run ended in a
    throw. *)
Theorem plain_peer_ids_keep_every_swarm_counted msgs self :
  Forall (fun m => plain_peer_id (snd m)) msgs ->
  all_counted self ->
  forall key, counted (swarm_at (final (handle_all self msgs)) key).
Proof.
  intros Hp Ha key. apply swarm_at_counted.
  now apply final_handle_all_counted.
Qed.

Lemma plain_peer_ids_witness :
  counted
    (swarm_at
       (final
          (handle_all (new_Server None)
             [ (1%nat, JSONValue (announce hash_a peer_1 "started" true None));
               (2%nat, JSONValue (announce hash_a peer_2 "started" false None));
               (1%nat, JSONValue (announce hash_a peer_1 "stopped" false None)) ]))
       hash_a).
Proof.
  apply (plain_peer_ids_keep_every_swarm_counted
           [ (1%nat, JSONValue (announce hash_a peer_1 "started" true None));
             (2%nat, JSONValue (announce hash_a peer_2 "started" false None));
             (1%nat, JSONValue (announce hash_a peer_1 "stopped" false None)) ]
           (new_Server None)).
  - repeat constructor.
  - intros key swarm H. discriminate H.
Defined.

(** The mark an entry brings to the count of marked entries. *)
Lemma marked_put_fresh props k v :
  own props k = None ->
  marked (put props k v)
  = (marked props
     + match v with Some p => if Peer.complete p then 1 else 0 | None => 0 end)%nat.
Proof.
  intros H. unfold marked. rewrite (present_put_fresh _ _ _ H).
  rewrite filter_app, length_app.
  destruct v as [p|]; simpl; [|reflexivity]. now destruct (Peer.complete p).
Qed.

Lemma marked_put_held props k old new :
  own props k = Some old ->
  (marked (put props k new)
   + match old with Some p => if Peer.complete p then 1 else 0 | None => 0 end
   = marked props
     + match new with Some p => if Peer.complete p then 1 else 0 | None => 0 end)%nat.
Proof.
  unfold marked.
  induction props as [|[k' v'] props IH]; simpl; [discriminate|].
  destruct (eqs k' k).
  - intros [= ->]. simpl.
    destruct old as [p|], new as [q|]; simpl;
      try destruct (Peer.complete p); try destruct (Peer.complete q);
      simpl; lia.
  - intros H. specialize (IH H).
    destruct v' as [r|]; simpl; [|exact IH].
    destruct (Peer.complete r); simpl; lia.
Qed.

Lemma switch_event_seeded self socket data swarm peerId self' swarm' w em :
  inherited peerId = false ->
  seeded swarm ->
  switch_event self socket data swarm peerId (get (Swarm.peers swarm) peerId)
  = Break self' swarm' w em ->
  seeded swarm'.
Proof.
  intros Hk Hc. rewrite (get_not_inherited _ _ Hk).
  unfold seeded in *.
  destruct swarm as [c i props]; simpl in *.
  unfold switch_event, case_started, case_stopped, case_completed,
    case_update, case_answered.
  destruct (own props peerId) as [[p|]|] eqn:E; simpl; intros H;
    repeat match type of H with
           | context [match ?x with _ => _ end] => destruct x eqn:?
           end; inversion H; subst; clear H; simpl; auto;
    try (rewrite (marked_put_fresh _ _ _ E); simpl; lia);
    try (pose proof (marked_put_held _ _ _ None E) as M; simpl in M;
         repeat match goal with
                | H : Peer.complete _ = _ |- _ => rewrite H in M
                end; lia);
    try (match goal with
         | |- context [put props peerId (Some ?q)] =>
             pose proof (marked_put_held _ _ _ (Some q) E) as M; simpl in M;
             repeat match goal with
                    | H : Peer.complete _ = _ |- _ => rewrite H in M
                    end; lia
         end).
Qed.

Lemma all_seeded_store self key swarm :
  all_seeded self -> seeded swarm -> all_seeded (store self key swarm).
Proof.
  intros Ha Hc key' swarm'. unfold store; simpl.
  destruct (eqs key key') eqn:E.
  - apply eqs_true_iff in E; subst. rewrite own_put_same. now intros [= <-].
  - apply eqs_false_iff in E. rewrite (own_put_other _ _ _ _ E). apply Ha.
Qed.

Lemma swarm_at_seeded self key : all_seeded self -> seeded (swarm_at self key).
Proof.
  intros Ha. unfold swarm_at.
  destruct (own (torrents self) key) eqn:E; [now apply (Ha key)|].
  unfold seeded; simpl. reflexivity.
Qed.

Lemma _onSocketMessage_seeded self socket data :
  plain_peer_id data ->
  all_seeded self ->
  all_seeded (final (_onSocketMessage self socket data)).
Proof.
  intros Hplain Ha.
  destruct data as [| |m]; [exact Ha|exact Ha|].
  destruct (_onSocketMessage_inv self socket m)
    as [[message E]|(infoHash & peerId & Haddr & E)]; rewrite E; [exact Ha|].
  assert (Hk : inherited peerId = false).
  { destruct Haddr as (_ & Hp & _). simpl in Hplain.
    destruct (peer_id m) as [str|]; [|discriminate].
    now injection Hp as <-. }
  destruct (_getSwarm self infoHash) as [self1 [k swarm|name]] eqn:G.
  - apply _getSwarm_SwarmAt in G. destruct G as (-> & -> & ->).
    set (swarm := swarm_at self infoHash).
    assert (Hs : seeded swarm) by now apply swarm_at_seeded.
    assert (Ha1 : all_seeded (store self infoHash swarm))
      by now apply all_seeded_store.
    destruct (offers_length m) as [length|]; simpl; auto.
    destruct switch_event as [self2 swarm2 w em|tr|] eqn:S; simpl; auto.
    pose proof (switch_event_seeded _ _ _ _ _ _ _ _ _ Hk Hs S) as Hc.
    apply switch_event_frame in S. destruct S as [Ht _].
    apply all_seeded_store; auto.
    intros key' swarm'. rewrite Ht. apply Ha1.
  - apply _getSwarm_PrototypeMember in G. now subst.
Qed.

(** X10. For peer ids that name no member of [Object.prototype],
    [complete] never goes below the number of entries marked complete, so it
    is never negative: this holds for every key after any run of messages,
    from any server where it holds, a new one included. *)
Theorem complete_covers_the_marked_entries msgs : forall self,
  Forall (fun m => plain_peer_id (snd m)) msgs ->
  all_seeded self ->
  forall key,
    (Z.of_nat (marked (Swarm.peers (swarm_at (final (handle_all self msgs)) key)))
     <= Swarm.complete (swarm_at (final (handle_all self msgs)) key))%Z /\
    (0 <= Swarm.complete (swarm_at (final (handle_all self msgs)) key))%Z.
Proof.
  assert (H : forall msgs self,
             Forall (fun m => plain_peer_id (snd m)) msgs ->
             all_seeded self -> all_seeded (final (handle_all self msgs))).
  { clear. induction msgs as [|[socket data] msgs IH]; intros self Hp Ha;
      simpl; auto.
    inversion Hp as [|? ? H1 H2]; subst; simpl in H1.
    pose proof (_onSocketMessage_seeded self socket data H1 Ha) as H.
    destruct (_onSocketMessage self socket data) as [self1 tr|self1 tr];
      simpl in *; auto.
    specialize (IH self1 H2 H).
    now destruct (handle_all self1 msgs). }
  intros self Hp Ha key.
  pose proof (swarm_at_seeded _ key (H msgs self Hp Ha)) as Hs.
  unfold seeded in Hs. split; [exact Hs|lia].
Qed.

Lemma complete_covers_the_marked_entries_witness :
  (Z.of_nat
     (marked
        (Swarm.peers
           (swarm_at
              (final
                 (handle_all (new_Server None)
                    [ (1%nat, JSONValue (announce hash_a peer_1 "started" false None));
                      (1%nat, JSONValue (announce hash_a peer_1 "completed" false None));
                      (1%nat, JSONValue (announce hash_a peer_1 "stopped" false None)) ]))
              hash_a)))
   <= Swarm.complete
        (swarm_at
           (final
              (handle_all (new_Server None)
                 [ (1%nat, JSONValue (announce hash_a peer_1 "started" false None));
                   (1%nat, JSONValue (announce hash_a peer_1 "completed" false None));
                   (1%nat, JSONValue (announce hash_a peer_1 "stopped" false None)) ]))
           hash_a))%Z /\
  (0 <= Swarm.complete
          (swarm_at
             (final
                (handle_all (new_Server None)
                   [ (1%nat, JSONValue (announce hash_a peer_1 "started" false None));
                     (1%nat, JSONValue (announce hash_a peer_1 "completed" false None));
                     (1%nat, JSONValue (announce hash_a peer_1 "stopped" false None)) ]))
             hash_a))%Z.
Proof.
  apply (complete_covers_the_marked_entries
           [ (1%nat, JSONValue (announce hash_a peer_1 "started" false None));
             (1%nat, JSONValue (announce hash_a peer_1 "completed" false None));
             (1%nat, JSONValue (announce hash_a peer_1 "stopped" false None)) ]
           (new_Server None)).
  - repeat constructor.
  - intros key swarm H. discriminate H.
Defined.

(** ** [binaryToUtf8] *)

Lemma to_N_byte_of_N c : (c < 256)%N -> Byte.to_N (byte_of_N c) = c.
Proof.
  intros H. unfold byte_of_N. destruct (Byte.of_N c) as [b|] eqn:E.
  - now apply Byte.to_of_N.
  - apply Byte.of_N_None_iff in E. lia.
Qed.

(** X11. [binaryToUtf8] returns a string of ASCII characters (code units
    below 128) as it is: such a [peer_id] names its entry in [peers] by the
    very string the client sent. *)
Theorem binaryToUtf8_keeps_ascii str :
  forallb (fun c => (c <? 128)%N) str = true -> binaryToUtf8 str = str.
Proof.
  unfold binaryToUtf8, toString_utf8, Buffer_binary.
  induction str as [|c str IH]; simpl; [reflexivity|].
  rewrite andb_true_iff. intros [Hc Hs]. apply N.ltb_lt in Hc.
  rewrite N.mod_small by lia. rewrite to_N_byte_of_N by lia.
  unfold utf8_lead. replace (c <=? 127)%N with true
    by (symmetry; apply N.leb_le; lia).
  simpl. now rewrite IH.
Qed.

Lemma binaryToUtf8_keeps_ascii_witness : binaryToUtf8 peer_1 = peer_1.
Proof. apply (binaryToUtf8_keeps_ascii peer_1). reflexivity. Defined.

Lemma length_utf8_lead b :
  (List.length (fst (utf8_lead b))
   + match snd (utf8_lead b) with Some _ => 1 | None => 0 end <= 1)%nat.
Proof.
  unfold utf8_lead.
  destruct (b <=? 127)%N; [simpl; lia|].
  destruct ((194 <=? b) && (b <=? 223))%N; [simpl; lia|].
  destruct ((224 <=? b) && (b <=? 239))%N; [simpl; lia|].
  destruct ((240 <=? b) && (b <=? 244))%N; simpl; lia.
Qed.

Lemma length_utf16 cp : (List.length (utf16 cp) <= 2)%nat.
Proof. unfold utf16. destruct (cp <? 65536)%N; simpl; lia. Qed.

Lemma length_utf8_decode bytes : forall p,
  (List.length (utf8_decode p bytes)
   <= List.length bytes + match p with Some _ => 1 | None => 0 end)%nat.
Proof.
  induction bytes as [|b rest IH]; intros p.
  - destruct p; simpl; lia.
  - pose proof (length_utf8_lead b) as Hl.
    destruct p as [[[[cp need] lo] hi]|]; cbn [utf8_decode].
    + destruct ((lo <=? b) && (b <=? hi))%N.
      * pose proof (length_utf16 (cp * 64 + N.land b 63)%N) as Hu.
        pose proof (IH None) as H0.
        destruct need as [|[|n]]; cbn zeta; cbv iota;
          try (rewrite length_app; simpl in *; lia).
        pose proof (IH (Some ((cp * 64 + N.land b 63)%N, S n, 128%N, 191%N))).
        simpl in *. lia.
      * destruct (utf8_lead b) as [out p']. specialize (IH p').
        simpl in *. rewrite length_app. lia.
    + destruct (utf8_lead b) as [out p']. specialize (IH p').
      simpl in *. rewrite length_app. lia.
Qed.

(** X12. [binaryToUtf8] never makes a string longer, so a [peer_id] of
    fewer than 20 code units cannot pass: with an [info_hash] that passes,
    the message is turned down with [invalid peer_id] and the server is left
    as it was. *)
Theorem short_peer_id_is_turned_down self socket data str :
  (List.length (binaryToUtf8 str) <= List.length str)%nat /\
  (well_sized (info_hash data) = true ->
   peer_id data = Some str ->
   (List.length str < 20)%nat ->
   _onSocketMessage self socket (JSONValue data)
   = Returned self (error socket "invalid peer_id")).
Proof.
  assert (Hlen : (List.length (binaryToUtf8 str) <= List.length str)%nat).
  { unfold binaryToUtf8, toString_utf8, Buffer_binary.
    pose proof (length_utf8_decode
                  (map Byte.to_N (map (fun c => byte_of_N (c mod 256)%N) str))
                  None) as H.
    rewrite !length_map in H. lia. }
  split; [exact Hlen|].
  unfold well_sized, _onSocketMessage.
  destruct (info_hash data) as [[|c infoHash]|]; try discriminate.
  intros -> -> Hshort. simpl.
  destruct (binaryToUtf8 str) as [|d peerId]; [reflexivity|].
  replace (List.length (d :: peerId) =? 20)%nat with false; [reflexivity|].
  symmetry. apply Nat.eqb_neq. lia.
Qed.

Lemma short_peer_id_witness :
  (List.length (binaryToUtf8 (js "short")) <= List.length (js "short"))%nat /\
  (well_sized (info_hash (announce hash_a (js "short") "started" false None))
   = true ->
   peer_id (announce hash_a (js "short") "started" false None)
   = Some (js "short") ->
   (List.length (js "short") < 20)%nat ->
   _onSocketMessage one_leecher 3%nat
     (JSONValue (announce hash_a (js "short") "started" false None))
   = Returned one_leecher (error 3%nat "invalid peer_id")).
Proof.
  apply (short_peer_id_is_turned_down one_leecher 3%nat
           (announce hash_a (js "short") "started" false None) (js "short")).
Defined.

(** ** The first peer of a swarm *)

Lemma present_put_alone props k p :
  present_peers props = [] -> present_peers (put props k (Some p)) = [p].
Proof.
  induction props as [|[k' [q|]] props IH]; simpl; auto; [discriminate|].
  intros H. destruct (eqs k' k); simpl; [now rewrite H|auto].
Qed.

(** X13. Nothing keeps the announcer out of the selection: a peer that
    starts in a swarm where no entry is present, with a [left] that
    [Number] converts, and brings an array of at least one offer, is sent
    its own first offer, with its own peer id, on its own connection, right
    after the response. *)
Theorem first_peer_is_introduced_to_itself
    self socket data infoHash peerId offer more :
  addressed data infoHash peerId ->
  resolves self infoHash ->
  event data = EventString (js "started") ->
  present (swarm_at self infoHash) = [] ->
  absent (get (Swarm.peers (swarm_at self infoHash)) peerId) = true ->
  left_converts data ->
  offers data = offers_array (offer :: more) ->
  exists self' c i,
    _onSocketMessage self socket (JSONValue data)
    = Returned self'
        [ Emit "start" None;
          Send socket (Response c i (_intervalMs self) None);
          Send socket (Introduction (Some offer) peerId) ] /\
    present (swarm_at self' infoHash) = [Peer.mk socket peerId false].
Proof.
  intros Haddr Hkey Hev Hnone Habs [zero Hleft] Hoff.
  assert (Hl : supplies data (offer :: more)) by now left.
  destruct (wanted_supplies _ _ Hl) as (length & Hlen & W).
  rewrite (started_accepted self socket data infoHash peerId Haddr Hkey
             length Hlen zero Hev Habs Hleft).
  cbv zeta.
  set (swarm' := after_started (swarm_at self infoHash) socket peerId zero).
  assert (Hp : present swarm' = [Peer.mk socket peerId false]).
  { unfold swarm', after_started, present, set_peer. simpl.
    apply present_put_alone.
    unfold present in Hnone. now destruct zero. }
  exists (store self infoHash swarm'), (Swarm.complete swarm'),
    (Swarm.incomplete swarm').
  split; [|now rewrite swarm_at_store].
  unfold reply. rewrite _getPeers_take, W, Hp.
  simpl List.length. simpl take. simpl forEach_send.
  now rewrite firstn_nil, (offers_at_supplies _ _ _ Hl).
Qed.

Lemma first_peer_witness :
  exists self' c i,
    _onSocketMessage (new_Server None) 1%nat
      (JSONValue (announce hash_a peer_1 "started" false (Some [js "o1"])))
    = Returned self'
        [ Emit "start" None;
          Send 1%nat (Response c i (_intervalMs (new_Server None)) None);
          Send 1%nat (Introduction (Some (js "o1")) peer_1) ] /\
    present (swarm_at self' hash_a) = [Peer.mk 1%nat peer_1 false].
Proof.
  apply (first_peer_is_introduced_to_itself (new_Server None) 1%nat
           (announce hash_a peer_1 "started" false (Some [js "o1"]))
           hash_a peer_1 (js "o1") []);
    try (repeat split; reflexivity); try (eexists; reflexivity).
  now apply resolves_plain.
Defined.

(** ** [getSwarm] after announces *)




(** ** [getSwarm] on a key of its own *)

(** X20. For every info hash that names no member of [Object.prototype],
    and of any length, [getSwarm] on the bytes and [getSwarm] on any hex
    string that spells them, in upper or in lower case, return the same
    swarm: the one [torrents] holds under the bytes as a binary string
    afterwards, which is the one it held before or else a new, empty one.
    No other key is touched, and whichever call comes second finds what the
    first one returned and creates nothing. *)
Theorem getSwarm_one_swarm_for_both_forms self buf hex :
  inherited (toString_binary buf) = false ->
  Buffer_hex hex = Some buf ->
  exists self1 swarm,
    getSwarm self (IsBuffer buf)
    = Some (self1, SwarmAt (toString_binary buf) swarm) /\
    getSwarm self (HexString hex)
    = Some (self1, SwarmAt (toString_binary buf) swarm) /\
    own (torrents self1) (toString_binary buf) = Some swarm /\
    swarm = swarm_at self (toString_binary buf) /\
    (forall key, swarm_at self1 key = swarm_at self key) /\
    getSwarm self1 (IsBuffer buf)
    = Some (self1, SwarmAt (toString_binary buf) swarm) /\
    getSwarm self1 (HexString hex)
    = Some (self1, SwarmAt (toString_binary buf) swarm).
Proof.
  intros Hplain Hhex. unfold getSwarm. rewrite Hhex. simpl.
  set (key := toString_binary buf) in *.
  pose proof (_getSwarm_swarm_at self key (resolves_plain self key Hplain))
    as G.
  exists (store self key (swarm_at self key)), (swarm_at self key).
  rewrite G, (_getSwarm_again _ _ _ _ G).
  split; [reflexivity|]. split; [reflexivity|].
  split; [simpl; apply own_put_same|]. split; [reflexivity|].
  split; [|split; reflexivity].
  intros key'. destruct (eqs key key') eqn:E.
  - apply eqs_true_iff in E; subst key'. apply swarm_at_store.
  - apply eqs_false_iff in E. now apply swarm_at_store_other.
Qed.

Lemma getSwarm_one_swarm_witness :
  exists self1 swarm,
    getSwarm one_leecher (IsBuffer (Buffer_binary (js "kkkkkkkkkkkkkkkkkkkk")))
    = Some (self1, SwarmAt
                     (toString_binary (Buffer_binary (js "kkkkkkkkkkkkkkkkkkkk")))
                     swarm) /\
    getSwarm one_leecher
      (HexString (js "6B6b6B6b6B6b6B6b6B6b6B6b6B6b6B6b6B6b6B6b"))
    = Some (self1, SwarmAt
                     (toString_binary (Buffer_binary (js "kkkkkkkkkkkkkkkkkkkk")))
                     swarm) /\
    own (torrents self1)
      (toString_binary (Buffer_binary (js "kkkkkkkkkkkkkkkkkkkk")))
    = Some swarm /\
    swarm = swarm_at one_leecher
              (toString_binary (Buffer_binary (js "kkkkkkkkkkkkkkkkkkkk"))) /\
    (forall key, swarm_at self1 key = swarm_at one_leecher key) /\
    getSwarm self1 (IsBuffer (Buffer_binary (js "kkkkkkkkkkkkkkkkkkkk")))
    = Some (self1, SwarmAt
                     (toString_binary (Buffer_binary (js "kkkkkkkkkkkkkkkkkkkk")))
                     swarm) /\
    getSwarm self1
      (HexString (js "6B6b6B6b6B6b6B6b6B6b6B6b6B6b6B6b6B6b6B6b"))
    = Some (self1, SwarmAt
                     (toString_binary (Buffer_binary (js "kkkkkkkkkkkkkkkkkkkk")))
                     swarm).
Proof.
  apply (getSwarm_one_swarm_for_both_forms one_leecher
           (Buffer_binary (js "kkkkkkkkkkkkkkkkkkkk"))
           (js "6B6b6B6b6B6b6B6b6B6b6B6b6B6b6B6b6B6b6B6b"));
    reflexivity.
Defined.

(** ** Introductions, whatever [offers] is *)

Lemma count_introductions em r pushes :
  forallb is_emit em = true ->
  is_introduction r = false ->
  forallb is_introduction pushes = true ->
  List.length (filter is_introduction (em ++ r :: pushes))
  = List.length pushes.
Proof.
  intros He Hr Hp. rewrite filter_app. simpl. rewrite Hr, length_app.
  assert (E1 : filter is_introduction em = []).
  { clear -He. induction em as [|[s f|ev m] em IH]; simpl in *; auto.
    discriminate. }
  assert (E2 : filter is_introduction pushes = pushes).
  { clear -Hp. induction pushes as [|e pushes IH]; simpl in *; auto.
    apply andb_true_iff in Hp. destruct Hp as [-> Hp]. now rewrite IH. }
  now rewrite E1, E2.
Qed.

Lemma wanted_of_length q :
  wanted (Math_min (or_zero (Num q)) MAX_ANNOUNCE_PEERS)
  = Some (Nat.min (Z.to_nat (Qceiling q)) 20).
Proof.
  assert (H : wanted (Math_min (Num q) MAX_ANNOUNCE_PEERS)
              = Some (Nat.min (Z.to_nat (Qceiling q)) 20)).
  { simpl. destruct (Qle_bool q (20 # 1)) eqn:E; simpl; f_equal.
    - apply Qle_bool_iff in E. apply Qceiling_resp_le in E.
      change (20 # 1) with (inject_Z 20) in E. rewrite Qceiling_Z in E. lia.
    - assert (H : Qlt (20 # 1) q).
      { apply Qnot_le_lt. intros H. apply Qle_bool_iff in H. congruence. }
      pose proof (Qlt_le_trans _ _ _ H (Qle_ceiling q)) as H'.
      change (20 # 1) with (inject_Z 20) in H'. rewrite <- Zlt_Qlt in H'.
      change (Z.to_nat (Qceiling (inject_Z 20))) with 20%nat. lia. }
  simpl or_zero. destruct (Qeq_bool q (0 # 1)) eqn:E; [|exact H].
  apply Qeq_bool_iff in E.
  assert (Hc : Qceiling q = 0%Z).
  { rewrite (Qceiling_comp _ _ E). reflexivity. }
  rewrite Hc. reflexivity.
Qed.

(** X21. The introductions a call pushes, for every value of [offers].
    There are never more than 20, whatever length [offers] claims. When
    the handler gets past the [switch] with an [offers] whose length is the
    number [q], it pushes the least number of introductions that is
    [>= q], capped by 20 and by the entries that are not [null]: [q] of
    them when [q] is a natural number, the next natural number when [q] has
    a fraction (3 for 2.5), none when [q] is 0 or negative. The [n]-th
    carries the element [n] of [offers], and [undefined] where there is
    none. *)
Theorem introductions_for_any_offers self socket data :
  (List.length
     (filter is_introduction
        (trace_of (_onSocketMessage self socket (JSONValue data)))) <= 20)%nat /\
  forall self' trace q elements,
    _onSocketMessage self socket (JSONValue data) = Returned self' trace ->
    existsb is_response trace = true ->
    offers data = OffersTruthy (Converts (Num q)) elements ->
    exists infoHash peerId emitted response pushes,
      addressed data infoHash peerId /\
      trace = emitted ++ Send socket response :: pushes /\
      forallb is_emit emitted = true /\
      List.length pushes
      = Nat.min (Nat.min (Z.to_nat (Qceiling q)) 20)
          (List.length (present (swarm_at self' infoHash))) /\
      forall n peer,
        (n < List.length pushes)%nat ->
        nth_error (present (swarm_at self' infoHash)) n = Some peer ->
        nth_error pushes n
        = Some (Send (Peer.socket peer)
                  (Introduction
                     (match nth_error elements n with
                      | Some offer => offer
                      | None => None
                      end) peerId)).
Proof.
  split.
  - destruct (_onSocketMessage_inv self socket data)
      as [[message E]|(infoHash & peerId & Haddr & E)]; rewrite E;
      [simpl; lia|].
    destruct (_getSwarm self infoHash) as [self1 [key swarm|name]];
      [|simpl; lia].
    destruct (offers_length data) as [length|] eqn:L; [|simpl; lia].
    destruct (switch_event self1 socket data swarm peerId
                (get (Swarm.peers swarm) peerId))
      as [s2 sw w em|tr|] eqn:S; unfold respond; cbn [trace_of];
      [| |simpl; lia].
    + unfold reply.
      rewrite (count_introductions em
                 (Send socket (Response (Swarm.complete sw)
                                 (Swarm.incomplete sw) (_intervalMs s2) w))
                 _ (switch_event_emitted _ _ _ _ _ _ _ _ _ _ S) eq_refl
                 (forEach_send_introductions _ _ _ _)).
      rewrite length_forEach_send, _getPeers_take.
      destruct (wanted_numWant _ _ L) as (k & -> & Hk). simpl.
      rewrite length_firstn. lia.
    + destruct (switch_event_Return_replies _ _ _ _ _ _ _ S) as (_ & _ & H).
      clear -H. induction tr as [|e tr IH]; simpl in *; [lia|].
      apply andb_true_iff in H. destruct H as [He H].
      apply negb_true_iff in He. rewrite He. now apply IH.
  - intros self' trace q elements Hret Hresp Hoff.
    destruct (_onSocketMessage_response _ _ _ _ _ Hret Hresp)
      as (infoHash & peerId & self2 & swarm' & w & em & length
          & Haddr & L & Hem & -> & ->).
    assert (Hlen : length = or_zero (Num q))
      by (unfold offers_length in L; rewrite Hoff in L; congruence).
    unfold reply. rewrite _getPeers_take, Hlen, wanted_of_length. simpl take.
    set (k := Nat.min (Z.to_nat (Qceiling q)) 20).
    exists infoHash, peerId, em,
      (Response (Swarm.complete swarm') (Swarm.incomplete swarm')
         (_intervalMs self2) w),
      (forEach_send (firstn k (present swarm')) 0 data peerId).
    rewrite swarm_at_store.
    split; [exact Haddr|]. split; [reflexivity|]. split; [exact Hem|].
    rewrite length_forEach_send, length_firstn.
    split; [reflexivity|].
    intros n peer Hn Hpeer.
    rewrite (nth_forEach_send _ 0 data peerId n peer).
    + simpl. unfold offers_at. now rewrite Hoff.
    + rewrite nth_error_firstn.
      assert (Hlt : (n <? k)%nat = true) by (apply Nat.ltb_lt; lia).
      now rewrite Hlt.
Qed.

Lemma introductions_for_a_fraction_witness :
  exists infoHash peerId emitted response pushes,
    addressed fractional_length infoHash peerId /\
    [ Emit "start" None;
      Send 3%nat (Response 0 3 (600 # 1) None);
      Send 1%nat (Introduction None peer_3);
      Send 2%nat (Introduction None peer_3);
      Send 3%nat (Introduction None peer_3) ]
    = emitted ++ Send 3%nat response :: pushes /\
    forallb is_emit emitted = true /\
    List.length pushes
    = Nat.min (Nat.min (Z.to_nat (Qceiling (5 # 2))) 20)
        (List.length
           (present
              (swarm_at
                 (final (_onSocketMessage two_leechers 3%nat
                           (JSONValue fractional_length)))
                 infoHash))) /\
    forall n peer,
      (n < List.length pushes)%nat ->
      nth_error
        (present
           (swarm_at
              (final (_onSocketMessage two_leechers 3%nat
                        (JSONValue fractional_length)))
              infoHash)) n = Some peer ->
      nth_error pushes n
      = Some (Send (Peer.socket peer)
                (Introduction
                   (match nth_error (@nil (option json)) n with
                    | Some offer => offer
                    | None => None
                    end) peerId)).
Proof.
  apply (proj2 (introductions_for_any_offers two_leechers 3%nat
                  fractional_length)
           (final (_onSocketMessage two_leechers 3%nat
                     (JSONValue fractional_length)))
           [ Emit "start" None;
             Send 3%nat (Response 0 3 (600 # 1) None);
             Send 1%nat (Introduction None peer_3);
             Send 2%nat (Introduction None peer_3);
             Send 3%nat (Introduction None peer_3) ]
           (5 # 2) []);
    reflexivity.
Defined.

(** ** Numbers that cannot be converted *)

(** X22. A message with valid ids whose [offers] has a length that
    [Number] cannot convert makes line 117 throw, whatever its event; and
    a [started] from a peer that is not in the swarm, whose [left] it
    cannot convert, makes line 128 throw. Either way the TypeError leaves
    the handler: nothing has been sent or emitted, no peer has been counted
    or stored, and every key stands for the same swarm as before. *)
Theorem unconvertible_numbers_throw self socket data infoHash peerId :
  addressed data infoHash peerId ->
  resolves self infoHash ->
  offers_length data = NumberThrows \/
  offers_convert data /\
  event data = EventString (js "started") /\
  absent (get (Swarm.peers (swarm_at self infoHash)) peerId) = true /\
  left_is_zero data = NumberThrows ->
  _onSocketMessage self socket (JSONValue data)
  = Thrown (store self infoHash (swarm_at self infoHash)) [] /\
  forall key,
    swarm_at (store self infoHash (swarm_at self infoHash)) key
    = swarm_at self key.
Proof.
  intros Haddr Hkey H. split; [|intros key; apply swarm_at_store_swarm_at].
  destruct H as [Hlen|([length Hlen] & Hev & Habs & Hleft)].
  - now apply (_onSocketMessage_unconvertible _ _ _ infoHash peerId).
  - now apply (started_unconvertible _ _ _ infoHash peerId Haddr Hkey length).
Qed.

Lemma unconvertible_numbers_witness :
  _onSocketMessage one_leecher 1%nat (JSONValue unconvertible_offers)
  = Thrown (store one_leecher hash_a (swarm_at one_leecher hash_a)) [] /\
  forall key,
    swarm_at (store one_leecher hash_a (swarm_at one_leecher hash_a)) key
    = swarm_at one_leecher key.
Proof.
  apply (unconvertible_numbers_throw one_leecher 1%nat unconvertible_offers
           hash_a peer_1).
  - repeat split; reflexivity.
  - now apply resolves_plain.
  - left. reflexivity.
Defined.

(** * Further properties of the socket *)

(** ** Warnings, timeouts and connections, in any order of events *)

Lemma count_app f a b : count f (a ++ b) = (count f a + count f b)%nat.
Proof. unfold count. now rewrite filter_app, length_app. Qed.

Lemma step_counts self i :
  count is_setTimeout (snd (Socket.step self i))
  = count is_emit_warning (snd (Socket.step self i)) /\
  (count is_new_WebSocket (snd (Socket.step self i))
   + Socket.timeouts (fst (Socket.step self i))
   = Socket.timeouts self + count is_setTimeout (snd (Socket.step self i)))%nat.
Proof.
  unfold count.
  destruct i as [ws r| |]; simpl.
  - destruct (nth_error (Socket.created self) ws) as [c|];
      [|simpl; split; lia].
    destruct (Socket.handlers c); [|simpl; split; lia].
    destruct r; simpl; try (split; lia).
    + destruct (Socket._errored self); simpl; split; lia.
    + destruct (Socket.onerror_called c); [simpl; split; lia|].
      unfold Socket._onerror, Socket.close; simpl.
      destruct (Socket._ws self); simpl; split; lia.
  - destruct (Socket.timeouts self) eqn:Ht; simpl; rewrite ?Ht; split; lia.
  - unfold Socket.close. destruct (Socket._ws self); simpl; [split; lia|].
    destruct (Socket._errored self); simpl; split; lia.
Qed.

Lemma run_counts inputs : forall self,
  count is_setTimeout (snd (Socket.run self inputs))
  = count is_emit_warning (snd (Socket.run self inputs)) /\
  (count is_new_WebSocket (snd (Socket.run self inputs))
   + Socket.timeouts (fst (Socket.run self inputs))
   = Socket.timeouts self + count is_setTimeout (snd (Socket.run self inputs)))%nat.
Proof.
  induction inputs as [|i inputs IH]; intros self; simpl.
  - unfold count; simpl. split; lia.
  - destruct (step_counts self i) as [H1 H2].
    destruct (Socket.step self i) as [self1 tr]; simpl in *.
    destruct (IH self1) as [H3 H4].
    destruct (Socket.run self1 inputs) as [self2 tr']; simpl in *.
    rewrite !count_app. split; lia.
Qed.

(** X15. Whatever happens to a [Socket], and in whatever order, it sets a
    timeout for [_init] exactly as often as it emits a warning: no reconnect
    is scheduled without a warning (a connection that just closes schedules
    none), and no warning comes without a reconnect being scheduled. *)
Theorem a_reconnect_is_scheduled_with_every_warning self inputs :
  count is_setTimeout (snd (Socket.run self inputs))
  = count is_emit_warning (snd (Socket.run self inputs)).
Proof. apply run_counts. Qed.

Lemma length_update l : forall w x,
  List.length (Socket.update l w x) = List.length l.
Proof. induction l; intros [|w] x; simpl; auto. Qed.

Lemma length_created__onclose self :
  List.length (Socket.created (fst (Socket._onclose self)))
  = List.length (Socket.created self).
Proof.
  simpl. destruct (Socket._ws self) as [w|]; auto.
  destruct (nth_error (Socket.created self) w); auto.
  apply length_update.
Qed.

Lemma step_created self i :
  List.length (Socket.created (fst (Socket.step self i)))
  = (List.length (Socket.created self)
     + count is_new_WebSocket (snd (Socket.step self i)))%nat.
Proof.
  pose proof (length_created__onclose self) as Hcl.
  unfold count. destruct i as [ws r| |]; cbn [Socket.step].
  - destruct (nth_error (Socket.created self) ws) as [c|]; [|simpl; lia].
    destruct (Socket.handlers c); [|simpl; lia].
    destruct r; try (simpl; lia).
    + rewrite Hcl. unfold Socket._onclose.
      destruct (Socket._errored self); simpl; lia.
    + destruct (Socket.onerror_called c); [simpl; lia|].
      unfold Socket._onerror, Socket.close.
      cbn [Socket._ws Socket.called].
      destruct (Socket._ws self) as [w|]; simpl.
      * rewrite length_update. lia.
      * rewrite length_update. lia.
  - destruct (Socket.timeouts self); simpl; [lia|].
    rewrite length_app; simpl; lia.
  - unfold Socket.close. destruct (Socket._ws self) as [w|].
    + simpl. lia.
    + rewrite Hcl. unfold Socket._onclose.
      destruct (Socket._errored self); simpl; lia.
Qed.

Lemma run_created inputs : forall self,
  List.length (Socket.created (fst (Socket.run self inputs)))
  = (List.length (Socket.created self)
     + count is_new_WebSocket (snd (Socket.run self inputs)))%nat.
Proof.
  induction inputs as [|i inputs IH]; intros self; simpl.
  - unfold count; simpl; lia.
  - pose proof (step_created self i) as Hs.
    destruct (Socket.step self i) as [self1 tr]; simpl in *.
    specialize (IH self1).
    destruct (Socket.run self1 inputs) as [self2 tr']; simpl in *.
    rewrite count_app. lia.
Qed.

(** X16. A [Socket] never opens more connections than it has cause to:
    over its whole life, in any order of events, the connections it has
    opened are the first one plus one for every timeout that has fired, which
    is at most one plus the warnings it has emitted. *)
Theorem connections_are_bounded_by_warnings url reconnectTimeout inputs :
  (count is_new_WebSocket
     (snd (Socket.new_Socket url reconnectTimeout)
      ++ snd (Socket.run (fst (Socket.new_Socket url reconnectTimeout)) inputs))
   + Socket.timeouts
       (fst (Socket.run (fst (Socket.new_Socket url reconnectTimeout)) inputs))
   = 1 + count is_emit_warning
           (snd (Socket.run (fst (Socket.new_Socket url reconnectTimeout))
                   inputs)))%nat /\
  List.length
    (Socket.created
       (fst (Socket.run (fst (Socket.new_Socket url reconnectTimeout)) inputs)))
  = count is_new_WebSocket
      (snd (Socket.new_Socket url reconnectTimeout)
       ++ snd (Socket.run (fst (Socket.new_Socket url reconnectTimeout)) inputs)).
Proof.
  split.
  - destruct (run_counts inputs (fst (Socket.new_Socket url reconnectTimeout)))
      as [H1 H2].
    rewrite count_app. simpl Socket.timeouts in H2 at 2.
    change (count is_new_WebSocket (snd (Socket.new_Socket url reconnectTimeout)))
      with 1%nat. lia.
  - rewrite count_app, run_created. reflexivity.
Qed.

(** ** A tracker that stays down *)

Lemma failed_cycle_run ws self :
  fresh_attempt ws self ->
  exists self',
    Socket.run self (failed_cycle ws)
    = (self', [ Socket.ws_close ws;
                Socket.setTimeout_init (Socket._reconnectTimeout self);
                Socket.emit_warning ws;
                Socket.new_WebSocket (Socket._url self) ]) /\
    fresh_attempt (S ws) self' /\
    Socket._url self' = Socket._url self /\
    Socket._reconnectTimeout self' = Socket._reconnectTimeout self /\
    Socket.timeouts self' = Socket.timeouts self.
Proof.
  destruct self as [url ms errored w created timeouts].
  unfold fresh_attempt, trying;
    cbn -[nth_error Socket.update List.length Socket.run].
  intros ((-> & -> & Hn) & Hl).
  pose proof (nth_error_update_same _ _
                {| Socket.handlers := true; Socket.onerror_called := true |}
                _ Hn) as Hn'.
  unfold Socket._onerror, Socket.close.
  cbn -[nth_error Socket.update List.length].
  rewrite Hn. cbn -[nth_error Socket.update List.length].
  rewrite Hn'. cbn -[nth_error Socket.update List.length].
  eexists; split; [reflexivity|].
  cbn -[nth_error Socket.update List.length].
  rewrite Hn', length_app, !length_update, Hl.
  repeat split; try (simpl; lia).
  rewrite nth_error_app2; rewrite !length_update, Hl; [|lia].
  now rewrite Nat.sub_diag.
Qed.

(** X17. While the tracker stays down the [Socket] keeps trying, one
    connection after the other: when [n] connections in a row fail (each
    reports its error, then its close, and the timeout fires), the socket
    closes each one, sets the timeout with its own [_reconnectTimeout], warns
    once and opens the next connection to the same url; it never emits
    'close', and it ends waiting on the [n]-th new connection with as many
    timeouts pending as before. *)
Theorem failing_connections_are_retried_in_turn n : forall ws self,
  fresh_attempt ws self ->
  snd (Socket.run self (failed_cycles ws n))
  = failed_cycles_trace (Socket._url self) (Socket._reconnectTimeout self) ws n /\
  fresh_attempt (ws + n) (fst (Socket.run self (failed_cycles ws n))) /\
  Socket.timeouts (fst (Socket.run self (failed_cycles ws n)))
  = Socket.timeouts self /\
  count is_emit_warning (snd (Socket.run self (failed_cycles ws n))) = n /\
  count is_emit_close (snd (Socket.run self (failed_cycles ws n))) = 0%nat.
Proof.
  induction n as [|n IH]; intros ws self H.
  - simpl. rewrite Nat.add_0_r. unfold count; simpl. auto.
  - destruct (failed_cycle_run ws self H) as (self1 & R & H1 & Hu & Hm & Ht).
    destruct (IH (S ws) self1 H1) as (I1 & I2 & I3 & I4 & I5).
    cbn [failed_cycles failed_cycles_trace].
    rewrite run_app, R. cbn [fst snd].
    destruct (Socket.run self1 (failed_cycles (S ws) n)) as [self2 tr] eqn:E.
    cbn [fst snd] in *.
    rewrite !count_app, I4, I5, I1, Hu, Hm, I3, Ht.
    replace (ws + S n)%nat with (S ws + n)%nat by lia.
    unfold count; simpl. auto.
Qed.

Lemma failing_connections_witness :
  fresh_attempt 0
    (fst (Socket.new_Socket (js "ws://tracker") None)) /\
  count is_emit_warning
    (snd (Socket.run (fst (Socket.new_Socket (js "ws://tracker") None))
            (failed_cycles 0 3))) = 3%nat.
Proof.
  assert (H : fresh_attempt 0
                (fst (Socket.new_Socket (js "ws://tracker") None))).
  { unfold fresh_attempt, trying. simpl. auto. }
  split; [exact H|].
  apply (failing_connections_are_retried_in_turn 3 0 _ H).
Defined.

(** ** What [send] writes to *)

Lemma step_current_is_newest self i :
  current_is_newest self -> current_is_newest (fst (Socket.step self i)).
Proof.
  unfold current_is_newest. intros H.
  destruct i as [ws r| |]; cbn [Socket.step].
  - destruct (nth_error (Socket.created self) ws) as [c|] eqn:Hn; [|exact H].
    destruct (Socket.handlers c) eqn:Hh; [|exact H].
    destruct r; try exact H.
    + simpl. exact I.
    + destruct (Socket.onerror_called c); [exact H|].
      unfold Socket._onerror, Socket.close.
      cbn [Socket._ws Socket.called].
      destruct (Socket._ws self) as [w|]; simpl; [|exact I].
      destruct H as (Hl & c' & Hc & Hh').
      rewrite length_update. split; [exact Hl|].
      destruct (Nat.eq_dec ws w) as [->|Hne].
      * rewrite (nth_error_update_same _ _ _ _ Hn). eexists; split; eauto.
      * rewrite nth_error_update_other by exact Hne. eauto.
  - destruct (Socket.timeouts self); [exact H|]. simpl.
    rewrite length_app; simpl. split; [lia|].
    rewrite nth_error_app2, Nat.sub_diag by lia. simpl. eauto.
  - unfold Socket.close. destruct (Socket._ws self) as [w|] eqn:Hw.
    + simpl. rewrite Hw. exact H.
    + simpl. exact I.
Qed.

Lemma run_current_is_newest inputs : forall self,
  current_is_newest self ->
  current_is_newest (fst (Socket.run self inputs)).
Proof.
  induction inputs as [|i inputs IH]; intros self H; simpl; auto.
  pose proof (step_current_is_newest self i H) as H1.
  destruct (Socket.step self i) as [self1 tr]; simpl in *.
  specialize (IH self1 H1).
  destruct (Socket.run self1 inputs) as [self2 tr']; simpl in *. exact IH.
Qed.

(** X18. [send] never writes to a stale connection. Whatever has happened
    to a [Socket] since it was made, [send] either does nothing, or logs the
    text and writes that same text (the string itself, or what
    [JSON.stringify] makes of an object) to one connection: the one created
    last, which is open and whose handlers the socket still has set. *)
Theorem send_writes_to_the_newest_connection
    url reconnectTimeout inputs readyState message :
  let self := fst (Socket.run (fst (Socket.new_Socket url reconnectTimeout))
                     inputs) in
  send self readyState message = [] \/
  exists ws c,
    send self readyState message
    = [console_log_send (payload message); ws_send ws (payload message)] /\
    S ws = List.length (Socket.created self) /\
    readyState ws = OPEN /\
    nth_error (Socket.created self) ws = Some c /\
    Socket.handlers c = true.
Proof.
  intros self.
  assert (H : current_is_newest self).
  { apply run_current_is_newest. unfold current_is_newest; simpl.
    split; [reflexivity|]. eauto. }
  unfold current_is_newest in H. unfold send.
  destruct (Socket._ws self) as [ws|]; [|now left].
  destruct H as (Hl & c & Hc & Hh).
  destruct (readyState ws) eqn:Hr; try (now left).
  right. exists ws, c. repeat split; auto.
Qed.

(** ** A socket no connection of which fails *)

Lemma step_no_error self i :
  no_error i = true ->
  Socket.timeouts self = 0%nat -> Socket._errored self = false ->
  Socket.timeouts (fst (Socket.step self i)) = 0%nat /\
  Socket._errored (fst (Socket.step self i)) = false /\
  forall e, In e (snd (Socket.step self i)) ->
            is_new_WebSocket e = false /\ is_setTimeout e = false /\
            is_emit_warning e = false.
Proof.
  intros Hi Ht He.
  destruct i as [ws r| |]; cbn [Socket.step].
  - destruct (nth_error (Socket.created self) ws) as [c|];
      [|simpl; repeat split; auto; contradiction].
    destruct (Socket.handlers c);
      [|simpl; repeat split; auto; contradiction].
    destruct r; try discriminate; simpl; rewrite ?He; simpl;
      (split; [auto|split; [auto|]]);
      intros e; simpl; intuition (subst; auto).
  - rewrite Ht. simpl. repeat split; auto; contradiction.
  - unfold Socket.close.
    destruct (Socket._ws self); simpl; rewrite ?He; simpl;
      (split; [auto|split; [auto|]]);
      intros e; simpl; intuition (subst; auto).
Qed.

Lemma count_none f trace :
  (forall e, In e trace -> f e = false) -> count f trace = 0%nat.
Proof.
  unfold count. induction trace as [|e trace IH]; intros H; simpl; auto.
  rewrite (H e (or_introl eq_refl)). apply IH. intros; apply H; now right.
Qed.

(** X19. A [Socket] reconnects after an error only. As long as no
    connection reports an error, whatever else happens (the connection opens,
    carries messages, closes, the owner calls [close], a timer fires), the
    socket emits no warning, sets no timeout and opens no connection beyond
    the one its constructor opened. *)
Theorem no_error_no_reconnect url reconnectTimeout inputs :
  forallb no_error inputs = true ->
  let trace :=
    snd (Socket.run (fst (Socket.new_Socket url reconnectTimeout)) inputs) in
  count is_emit_warning trace = 0%nat /\
  count is_setTimeout trace = 0%nat /\
  count is_new_WebSocket trace = 0%nat /\
  List.length
    (Socket.created
       (fst (Socket.run (fst (Socket.new_Socket url reconnectTimeout)) inputs)))
  = 1%nat.
Proof.
  intros Hin trace.
  assert (H : forall self,
            Socket.timeouts self = 0%nat -> Socket._errored self = false ->
            forall e, In e (snd (Socket.run self inputs)) ->
                      is_new_WebSocket e = false /\ is_setTimeout e = false /\
                      is_emit_warning e = false).
  { clear trace. induction inputs as [|i inputs IH]; intros self Ht He e;
      simpl; [contradiction|].
    simpl in Hin. apply andb_true_iff in Hin as [Hi Hin].
    destruct (step_no_error self i Hi Ht He) as (Ht1 & He1 & Hs).
    destruct (Socket.step self i) as [self1 tr]; simpl in *.
    specialize (IH Hin self1 Ht1 He1 e).
    destruct (Socket.run self1 inputs) as [self2 tr']; simpl in *.
    rewrite in_app_iff. intros [Hin'|Hin']; auto. }
  specialize (H (fst (Socket.new_Socket url reconnectTimeout))
                eq_refl eq_refl).
  fold trace in H.
  assert (Hn : count is_new_WebSocket trace = 0%nat).
  { apply count_none. intros e He. now apply H. }
  repeat split.
  - apply count_none. intros e He. now apply H.
  - apply count_none. intros e He. now apply H.
  - exact Hn.
  - rewrite run_created. fold trace. rewrite Hn. reflexivity.
Qed.

Lemma no_error_witness :
  count is_emit_warning
    (snd (Socket.run (fst (Socket.new_Socket (js "ws://tracker") None))
            [ Socket.Fire 0 Socket.onopen; Socket.Fire 0 Socket.onclose;
              Socket.Timeout; Socket.Call_close ])) = 0%nat.
Proof.
  apply (no_error_no_reconnect (js "ws://tracker") None
           [ Socket.Fire 0 Socket.onopen; Socket.Fire 0 Socket.onclose;
             Socket.Timeout; Socket.Call_close ] eq_refl).
Defined.
